(** * bigwarp-zarr-to-ometiff: the pyramidal OME-TIFF writer

    A shallow embedding of the notebook cell that defines
    [write_pyramidal_ome_tiff], [_tiles_generator], [_downsample_image],
    [_make_ome_metadata] and [_creator], together with the few operations of
    numpy, scikit-image and tifffile those functions call. *)

From Stdlib Require Import ZArith QArith Lia Ascii.
From stdpp Require Import base list gmap strings.

Local Open Scope nat_scope.

(** ** Python values shared by all functions *)

(** The exceptions the modelled code can raise.  The notebook defines no
    exception classes of its own: parameter errors surface as the
    [ValueError] of the library call that first consumes the bad value, and
    the channel-name check is a bare [assert]. *)
Inductive exn : Type :=
  | ValueError (msg : string)
  | AssertionError.

Inductive res (A : Type) : Type :=
  | Ok (a : A)
  | Raise (e : exn).
Arguments Ok {A} a.
Arguments Raise {A} e.

Definition res_bind {A B} (r : res A) (k : A → res B) : res B :=
  match r with Ok a => k a | Raise e => Raise e end.

(** The quotient of [n] by a positive [k], rounded up. *)
Definition ceil_div (n k : nat) : nat := (n + (k - 1)) / k.

(** ** Python floats: [math.ceil(h / 2**level)] *)

(** [n / 2**s] rounded to the nearest integer, ties to the even one; for
    [s <= 0] the quotient is the integer [n * 2**(-s)]. *)
Definition round_half_even_shift (n s : Z) : Z :=
  if (s <=? 0)%Z then (n * 2 ^ (- s))%Z
  else
    let q := (n / 2 ^ s)%Z in
    let r := (n mod 2 ^ s)%Z in
    let half := (2 ^ (s - 1))%Z in
    if (r <? half)%Z then q
    else if (half <? r)%Z then (q + 1)%Z
    else if Z.even q then q else (q + 1)%Z.

(** [h / 2**k] for integers [h >= 0] and [k >= 0]: Python's true division
    gives the float nearest to the exact quotient, here as a pair [(m, e)]
    that stands for [m * 2**e].  A float has 53 significant bits and no bit
    below 2**(-1074), so the quotient is cut at [e] and rounded there.
    (Quotients of 2**1024 and more make Python raise OverflowError; no array
    has a side that long.) *)
Definition truediv_pow2 (h k : Z) : Z * Z :=
  if (h =? 0)%Z then (0%Z, 0%Z)
  else
    let bits := (Z.log2 h + 1)%Z in
    let e := Z.max (bits - k - 53) (- 1074) in
    (round_half_even_shift h (k + e), e).

(** [math.ceil(x)] of the float [m * 2**e]. *)
Definition ceil_float (x : Z * Z) : Z :=
  let '(m, e) := x in
  if (0 <=? e)%Z then (m * 2 ^ e)%Z else (- ((- m) / 2 ^ (- e)))%Z.

(** [math.ceil(h / 2**level)] *)
Definition ceil_truediv_pow2 (h level : nat) : nat :=
  Z.to_nat (ceil_float (truediv_pow2 (Z.of_nat h) (Z.of_nat level))).

(** ** numpy: two-dimensional arrays *)

Module Numpy.

(** A 2-D [ndarray]: the column count is part of the shape and is kept
    even when the array has no rows. *)
Record ndarray (A : Type) : Type := Array2 { ncols : nat; rows : list (list A) }.
Arguments Array2 {A} ncols rows.
Arguments ncols {A} _.
Arguments rows {A} _.

Definition nrows {A} (a : ndarray A) : nat := length (rows a).
Definition shape {A} (a : ndarray A) : nat * nat := (nrows a, ncols a).

(** Every row has [ncols] elements. *)
Definition rectangular {A} (a : ndarray A) : Prop :=
  Forall (λ r, length r = ncols a) (rows a).

Definition item {A} (a : ndarray A) (i j : nat) : option A :=
  rows a !! i ≫= λ r, r !! j.

(** [l[lo:hi]] for [0 <= lo]: indices past the end are clipped. *)
Definition slice {A} (lo hi : nat) (l : list A) : list A :=
  take (hi - lo) (drop lo l).

(** [a[y0:y1, x0:x1]] *)
Definition slice2 {A} (a : ndarray A) (y0 y1 x0 x1 : nat) : ndarray A :=
  {| ncols := min x1 (ncols a) - min x0 (ncols a);
     rows := slice x0 x1 <$> slice y0 y1 (rows a) |}.

(** [l[::k]] for a positive step [k], written as the walk it is: keep an
    element, skip [k - 1], repeat.  [skip] counts the elements still to be
    dropped before the next one that is kept. *)
Fixpoint every_from {A} (k skip : nat) (l : list A) : list A :=
  match l with
  | [] => []
  | x :: l' =>
      match skip with
      | 0 => x :: every_from k (k - 1) l'
      | S n => every_from k n l'
      end
  end.

(** [l[::s]] for a non-zero step: a positive step walks from the first
    element, a negative one from the last element backwards. *)
Definition step {A} (s : Z) (l : list A) : list A :=
  if (0 <? s)%Z then every_from (Z.to_nat s) 0 l
  else every_from (Z.to_nat (- s)) 0 (reverse l).

(** [a[::s, ::s]]; a zero step is refused. *)
Definition step2 {A} (a : ndarray A) (s : Z) : res (ndarray A) :=
  if (s =? 0)%Z then Raise (ValueError "slice step cannot be zero")
  else Ok {| ncols := ceil_div (ncols a) (Z.abs_nat s);
             rows := step s <$> step s (rows a) |}.

(** [np.pad(a, ((0, ph), (0, pw)), mode='constant', constant_values=cval)] *)
Definition pad {A} (a : ndarray A) (ph pw : nat) (cval : A) : ndarray A :=
  {| ncols := ncols a + pw;
     rows := ((λ r, r ++ replicate pw cval) <$> rows a)
               ++ replicate ph (replicate (ncols a + pw) cval) |}.

Definition sum_list (xs : list Z) : Z := foldr Z.add 0%Z xs.

(** The sum of the absolute values. *)
Definition sum_abs (xs : list Z) : Z := foldr (λ x acc, Z.abs x + acc)%Z 0%Z xs.

(** Whether [np.mean] of the integers [xs] is computed without a rounding
    error that could show after the cast back to integers.  The mean is
    taken in float64: the values are converted, added up and the sum divided
    by the count.  When the absolute values and the count add up to less
    than 2^53, every conversion and every partial sum, in whatever order they
    are formed, is an integer below 2^53 and so exact, and the rounded
    quotient has the integer part of the exact one. *)
Definition float_exact (xs : list Z) : bool :=
  (sum_abs xs + Z.of_nat (length xs) <? 2 ^ 53)%Z.

(** The float64 values [np.mean] returns: the float nearest to an exact
    quotient [q] of the kind [float_exact] describes, or the mean of values
    [xs] beyond that, which depends on the order of the additions and is not
    computed here. *)
Inductive float64 : Type :=
  | Nearest (q : Q)
  | Inexact (xs : list Z).

(** [np.mean] of integers. *)
Definition mean (xs : list Z) : float64 :=
  if float_exact xs then Nearest (Qmake (sum_list xs) (Pos.of_nat (length xs)))
  else Inexact xs.

(** [.astype(dtype)] from the float result back to the integer element type
    of the image.  An [ndarray Z] stands for an array of any integer dtype
    that holds its pixels: the cast drops the fractional part (rounding
    toward zero) of a [Nearest] mean, which lies between the smallest and the
    largest of the values averaged, and with them within the dtype.  What
    the cast gives for an [Inexact] mean, where it may also wrap around,
    depends on the dtype and is left open: [rounded] stands for it.  Planes
    of a float dtype are not modelled. *)
Definition astype_int (rounded : list Z → Z) (a : ndarray float64) : ndarray Z :=
  {| ncols := ncols a;
     rows := fmap (M := list)
               (λ v, match v with
                     | Nearest q => Z.quot (Qnum q) (Z.pos (Qden q))
                     | Inexact xs => rounded xs
                     end) <$> rows a |}.

(** [np.zeros((h, w))] *)
Definition zeros (h w : nat) : ndarray Z :=
  {| ncols := w; rows := replicate h (replicate w 0%Z) |}.

End Numpy.
Import Numpy.

(** ** scikit-image: [skimage.transform.downscale_local_mean] *)

Module Skimage.

(** Padding that [block_reduce] adds after an axis of length [n] so that
    the block size [f] divides it. *)
Definition after_width (n f : nat) : nat :=
  if n mod f =? 0 then 0 else f - n mod f.

(** Block [(i, j)] of [view_as_blocks(a, (f, f))], flattened. *)
Definition block {A} (a : ndarray A) (f i j : nat) : list A :=
  concat (slice (j * f) (j * f + f) <$> slice (i * f) (i * f + f) (rows a)).

(** [block_reduce(image, (f, f), np.mean, cval)] for [f >= 1]: the image
    is padded with [cval] up to a multiple of the block size, cut into
    [f] x [f] blocks, and each block is replaced by its mean. *)
Definition block_reduce_mean (image : ndarray Z) (f : nat) (cval : Z) : ndarray float64 :=
  let padded := pad image (after_width (nrows image) f)
                          (after_width (ncols image) f) cval in
  {| ncols := ncols padded / f;
     rows := (λ i, (λ j, mean (block padded f i j)) <$> seq 0 (ncols padded / f))
               <$> seq 0 (nrows padded / f) |}.

(** [downscale_local_mean(image, (f, f))], with the library's default
    [cval=0]: factors below one are refused. *)
Definition downscale_local_mean (image : ndarray Z) (f : Z) : res (ndarray float64) :=
  if (f <? 1)%Z
  then Raise (ValueError "Down-sampling factors must be >= 1. Use `skimage.transform.resize` to up-sample an image.")
  else Ok (block_reduce_mean image (Z.to_nat f) 0%Z).

End Skimage.
Import Skimage.

(** ** The notebook: downsampling *)

(** [_downsample_image(img, downsample_factor, downsample_method)], for
    planes of an integer dtype; [rounded] is what [astype_int] leaves open. *)
Definition _downsample_image (rounded : list Z → Z) (img : ndarray Z)
    (downsample_factor : Z) (downsample_method : string) : res (ndarray Z) :=
  if (downsample_factor =? 1)%Z then Ok img
  else if String.eqb downsample_method "box"
  then res_bind (downscale_local_mean img downsample_factor)
         (λ m, Ok (astype_int rounded m))
  else step2 img downsample_factor.

(** ** Python generators and [range] *)

(** What draining a generator gives: the values it yields, in order, and
    how it ends: normally ([None]) or with an exception. *)
Definition gen (A : Type) : Type := list A * option exn.

Definition gen_yield {A} (x : A) : gen A := ([x], None).
Definition gen_raise {A} (e : exn) : gen A := ([], Some e).

(** [for x in xs: body(x)] inside a generator: the yields of the iterations
    follow each other and the first exception ends the loop. *)
Fixpoint gen_for {A B} (xs : list A) (body : A → gen B) : gen B :=
  match xs with
  | [] => ([], None)
  | x :: xs' =>
      match body x with
      | (ys, None) => let '(zs, e) := gen_for xs' body in (ys ++ zs, e)
      | (ys, Some e) => (ys, Some e)
      end
  end.

(** The values [y, y + step, ...] below [stop], for a positive [step]; at
    most [fuel] of them. *)
Fixpoint range_loop (fuel y stop step : nat) : list nat :=
  match fuel with
  | 0 => []
  | S n => if y <? stop then y :: range_loop n (y + step) stop step else []
  end.

(** [range(0, stop, step)] with [stop >= 0]: a zero step is refused and a
    negative step gives the empty range. *)
Definition py_range0 (stop : nat) (step : Z) : res (list nat) :=
  if (step =? 0)%Z then Raise (ValueError "range() arg 3 must not be zero")
  else if (step <? 0)%Z then Ok []
  else Ok (range_loop stop 0 stop (Z.to_nat step)).

Definition gen_for_range {B} (stop : nat) (step : Z) (body : nat → gen B) : gen B :=
  match py_range0 stop step with
  | Ok ys => gen_for ys body
  | Raise e => gen_raise e
  end.

(** ** dask: the input image stack *)

(** An image stack of shape [(channels, y, x)].  Only its shape and
    [img_stack[c].compute()], the full plane of channel [c], are used. *)
Record dask_array : Type := Stack {
  image_height : nat;
  image_width : nat;
  planes : list (ndarray Z)
}.

Definition num_channels (img_stack : dask_array) : nat := length (planes img_stack).

(** Every plane is a rectangular array of the stack's height and width. *)
Definition stack_ok (img_stack : dask_array) : Prop :=
  Forall (λ p, rectangular p ∧ shape p = (image_height img_stack, image_width img_stack))
         (planes img_stack).

(** ** The notebook: tiles *)

(** The two nested loops that close the channel body of [_tiles_generator]:
    the tiles of one (downsampled) image. *)
Definition image_tiles (image : ndarray Z) (tile_height tile_width : Z) : gen (ndarray Z) :=
  gen_for_range (nrows image) tile_height (λ y,
    gen_for_range (ncols image) tile_width (λ x,
      gen_yield (slice2 image y (y + Z.to_nat tile_height) x (x + Z.to_nat tile_width)))).

(** [_tiles_generator(img_stack, tile_sizes, downsample_factor, downsample_method)] *)
Definition _tiles_generator (rounded : list Z → Z) (img_stack : dask_array)
    (tile_sizes : Z * Z) (downsample_factor : Z) (downsample_method : string)
    : gen (ndarray Z) :=
  let '(tile_height, tile_width) := tile_sizes in
  gen_for (planes img_stack) (λ image,
    match _downsample_image rounded image downsample_factor downsample_method with
    | Raise e => gen_raise e
    | Ok image => image_tiles image tile_height tile_width
    end).

(** ** The notebook: metadata *)

(** The values stored in the metadata dictionary: a string, or the inner
    dictionary [{'Name': channel_names}]. *)
Inductive ome_value : Type :=
  | OmeStr (s : string)
  | OmeChannel (Name : list string).

(** [_creator()] *)
Definition _creator : string := "zarr-ometiff".

Section Metadata.

(** Python floats and the built-in [str] on them. *)
Context {float : Type} (str : float → string).

(** [_make_ome_metadata(img_stack, channel_names, pixel_size_um)].  The two
    [if]s test truthiness: [None] is false, a pair is always true, and a
    list is true exactly when it is not empty. *)
Definition _make_ome_metadata (img_stack : dask_array)
    (channel_names : option (list string))
    (pixel_size_um : option (float * float)) : res (gmap string ome_value) :=
  let ome_metadata : gmap string ome_value := ∅ in
  let ome_metadata := <["Creator" := OmeStr _creator]> ome_metadata in
  let ome_metadata :=
    match pixel_size_um with
    | Some (pixel_size_y_um, pixel_size_x_um) =>
        let m := <["PhysicalSizeX" := OmeStr (str pixel_size_x_um)]> ome_metadata in
        let m := <["PhysicalSizeXUnit" := OmeStr "µm"]> m in
        let m := <["PhysicalSizeY" := OmeStr (str pixel_size_y_um)]> m in
        <["PhysicalSizeYUnit" := OmeStr "µm"]> m
    | None => ome_metadata
    end in
  match channel_names with
  | Some (name :: names) =>
      if decide (length (name :: names) = num_channels img_stack)
      then Ok (<["Channel" := OmeChannel (name :: names)]> ome_metadata)
      else Raise AssertionError
  | Some [] | None => Ok ome_metadata
  end.

End Metadata.

(** ** tifffile: [TiffWriter] on a small file system *)

Module Tifffile.

(** A file name, as the parts of a [pathlib.Path]. *)
Definition path : Type := list string.

(** The arguments of one [TiffWriter.write] call, but for [dtype], which
    the model leaves out.  The [data] iterator is a generator object:
    building it runs nothing, so it is a thunk. *)
Record write_args : Type := WriteArgs {
  data : unit → gen (ndarray Z);
  shape4 : nat * nat * nat * nat;
  subifds : option Z;
  subfiletype : option Z;
  tile : Z * Z;
  photometric : string;
  compression : option string;
  metadata : gmap string ome_value;
  software : string
}.

(** One image written to the container: the call that declared it and
    the tiles it received. *)
Record page : Type := Page { page_args : write_args; page_tiles : list (ndarray Z) }.

Record tiff_file : Type := TiffFile { header : list Byte.byte; pages : list page }.

Record world : Type := World { dirs : gset path; files : gmap path tiff_file }.

(** Calls that read or change the file system and may raise. *)
Definition io (A : Type) : Type := world → res A * world.

Definition io_ret {A} (a : A) : io A := λ w, (Ok a, w).
Definition io_raise {A} (e : exn) : io A := λ w, (Raise e, w).
Definition io_bind {A B} (m : io A) (k : A → io B) : io B :=
  λ w, match m w with
       | (Ok a, w') => k a w'
       | (Raise e, w') => (Raise e, w')
       end.
Definition io_lift {A} (r : res A) : io A := λ w, (r, w).

Fixpoint io_for {A} (xs : list A) (body : A → io unit) : io unit :=
  match xs with
  | [] => io_ret tt
  | x :: xs' => io_bind (body x) (λ _, io_for xs' body)
  end.

(** [Path(p).mkdir(parents=True, exist_ok=True)]: the directory and all
    its ancestors exist afterwards. *)
Definition mkdir_parents (p : path) : io unit :=
  λ w, (Ok tt, {| dirs := dirs w ∪ list_to_set ((λ k, take k p) <$> seq 1 (length p));
                  files := files w |}).

(** The sixteen bytes a little-endian BigTIFF file starts with: the byte
    order mark [II], version 43, offset size 8, a zero pad, and the
    eight-byte offset of the first directory, still zero. *)
Definition bigtiff_header : list Byte.byte :=
  [Byte.x49; Byte.x49; Byte.x2b; Byte.x00; Byte.x08; Byte.x00; Byte.x00; Byte.x00;
   Byte.x00; Byte.x00; Byte.x00; Byte.x00; Byte.x00; Byte.x00; Byte.x00; Byte.x00].

(** The header once the first image is written: its directory follows the
    header, so the offset of the first directory becomes 16. *)
Definition link_first_directory (h : list Byte.byte) : list Byte.byte :=
  take 8 h ++ [Byte.x10; Byte.x00; Byte.x00; Byte.x00;
               Byte.x00; Byte.x00; Byte.x00; Byte.x00].

(** [TiffWriter(file, ome=True, bigtiff=True)]: the file is created, or
    truncated, and the header is written at once. *)
Definition TiffWriter (file : path) : io unit :=
  λ w, (Ok tt, {| dirs := dirs w;
                  files := <[file := {| header := bigtiff_header; pages := [] |}]> (files w) |}).

(** The tile shapes [write] accepts: both sides positive multiples of 16. *)
Definition tile_ok (t : Z * Z) : bool :=
  ((fst t mod 16 =? 0) && (snd t mod 16 =? 0) && (1 <=? fst t) && (1 <=? snd t))%Z.

(** Appending an image to a file: the header points at the first directory
    from then on. *)
Definition add_page (pg : page) (f : tiff_file) : tiff_file :=
  {| header := link_first_directory (header f); pages := pages f ++ [pg] |}.

(** The number of tiles an image of the declared shape
    [(channels, h, w, samples)] is made of. *)
Definition tiles_needed (args : write_args) : nat :=
  (shape4 args).1.1.1
  * (ceil_div (shape4 args).1.1.2 (Z.to_nat (tile args).1)
     * ceil_div (shape4 args).1.2 (Z.to_nat (tile args).2)).

(** [tif.write(data=..., shape=..., ...)] on the writer of [file], as the
    releases of tifffile up to 2024.8.10 do it.  The tile shape is checked
    before anything is written and before the iterator is touched (the text
    of the error differs between releases).  Then the directory of the new
    image is written, which links it from the header, and the tiles are
    drawn from the iterator.  When the iterator supplies exactly the tiles
    the declared shape is made of, the call succeeds; when it raises before
    it has supplied them, the call ends with that exception.  In every other
    case (too few tiles, too many, an exception after the tiles needed) the
    outcome depends on the release, and [mismatched] stands for it. *)
Definition write (mismatched : write_args → list (ndarray Z) → res unit)
    (file : path) (args : write_args) : io unit :=
  if tile_ok (tile args) then
    λ w, let '(tiles, e) := data args () in
         let w' := {| dirs := dirs w;
                      files := alter (add_page (Page args tiles)) file (files w) |} in
         (match e with
          | Some e =>
              if decide (length tiles < tiles_needed args) then Raise e
              else mismatched args tiles
          | None =>
              if decide (length tiles = tiles_needed args) then Ok tt
              else mismatched args tiles
          end, w')
  else io_raise (ValueError "invalid tile shape").

End Tifffile.
Import Tifffile.

(** ** The notebook: the writer *)

Section Writer.

(** What the models of numpy and tifffile leave open, and Python's [str] on
    floats. *)
Context (rounded : list Z → Z)
        (mismatched : write_args → list (ndarray Z) → res unit)
        {float : Type} (str : float → string).

(** The keyword arguments shared by every [tif.write] call. *)
Record options : Type := Options {
  opt_tile : Z * Z;
  opt_photometric : string;
  opt_compression : option string;
  opt_metadata : gmap string ome_value;
  opt_software : string
}.

(** The call that writes the full resolution image. *)
Definition level0_args (img_stack : dask_array) (o : options)
    (num_pyramid_levels : Z) (downsample_method : string) : write_args :=
  let downsample_factor := 1%Z in
  {| data := λ _, _tiles_generator rounded img_stack (opt_tile o) downsample_factor
                    downsample_method;
     shape4 := (num_channels img_stack, image_height img_stack, image_width img_stack, 1);
     subifds := Some (num_pyramid_levels - 1)%Z;
     subfiletype := None;
     tile := opt_tile o;
     photometric := opt_photometric o;
     compression := opt_compression o;
     metadata := opt_metadata o;
     software := opt_software o |}.

(** The call that writes pyramid level [level >= 1].  The declared shape
    goes through a float quotient, the factor handed to the generator is
    the integer [2**level]. *)
Definition level_args (img_stack : dask_array) (o : options)
    (downsample_method : string) (level : nat) : write_args :=
  let downsampled_data_shape :=
    (ceil_truediv_pow2 (image_height img_stack) level,
     ceil_truediv_pow2 (image_width img_stack) level) in
  let downsample_factor := (2 ^ Z.of_nat level)%Z in
  {| data := λ _, _tiles_generator rounded img_stack (opt_tile o) downsample_factor
                    downsample_method;
     shape4 := (num_channels img_stack, downsampled_data_shape.1, downsampled_data_shape.2, 1);
     subifds := None;
     subfiletype := Some 1%Z;
     tile := opt_tile o;
     photometric := opt_photometric o;
     compression := opt_compression o;
     metadata := opt_metadata o;
     software := opt_software o |}.

(** [range(1, n)] *)
Definition py_range1 (n : Z) : list nat := seq 1 (Z.to_nat (n - 1)).

(** [write_pyramidal_ome_tiff(img_stack, pyramid_filename, channel_names,
    pixel_size_um, compression, tile_size, max_levels, downsample_method)].
    Leaving the [with] block closes the writer; the model keeps the header
    and the images of a file, not the bytes of the images, and closing
    changes neither. *)
Definition write_pyramidal_ome_tiff (img_stack : dask_array)
    (pyramid_filename : path) (channel_names : option (list string))
    (pixel_size_um : option (float * float)) (compression : option string)
    (tile_size : Z) (max_levels : Z) (downsample_method : string) : io unit :=
  let num_pyramid_levels := max_levels in
  io_bind (io_lift (_make_ome_metadata str img_stack channel_names pixel_size_um))
    (λ ome_metadata,
  let tile_sizes := (tile_size, tile_size) in
  let o := {| opt_tile := tile_sizes;
              opt_photometric := "minisblack";
              opt_compression := compression;
              opt_metadata := ome_metadata;
              opt_software := _creator |} in
  io_bind (mkdir_parents (removelast pyramid_filename)) (λ _,
  io_bind (TiffWriter pyramid_filename) (λ _,
  io_bind (write mismatched pyramid_filename
             (level0_args img_stack o num_pyramid_levels downsample_method)) (λ _,
  io_for (py_range1 num_pyramid_levels) (λ level,
    write mismatched pyramid_filename
      (level_args img_stack o downsample_method level)))))).

End Writer.

(** ** The notebook: channel names *)

(** The exceptions of list indexing and dictionary lookup. *)
Inductive lookup_exn : Type :=
  | IndexError
  | KeyError (key : string).

(** [s.split('/')]: the pieces between the slashes, empty pieces included. *)
Fixpoint split_slash (s : string) : list string :=
  match s with
  | EmptyString => [EmptyString]
  | String c s' =>
      if Ascii.eqb c "/"%char then EmptyString :: split_slash s'
      else match split_slash s' with
           | piece :: pieces => String c piece :: pieces
           | [] => [String c EmptyString]
           end
  end.

(** [group_name_to_channel_name(group_name, renaming_dict)]; the [if] tests
    truthiness, so an empty dictionary counts as none. *)
Definition group_name_to_channel_name (group_name : string)
    (renaming_dict : option (gmap string string)) : lookup_exn + string :=
  match split_slash group_name !! 2 with
  | None => inl IndexError
  | Some channel_name =>
      match renaming_dict with
      | Some d =>
          if decide (d = ∅) then inr channel_name
          else match d !! channel_name with
               | Some renamed => inr renamed
               | None => inl (KeyError channel_name)
               end
      | None => inr channel_name
      end
  end.

(** No character of [s] is a slash. *)
Fixpoint slash_free (s : string) : bool :=
  match s with
  | EmptyString => true
  | String c s' => negb (Ascii.eqb c "/"%char) && slash_free s'
  end.

(** The number of slashes in [s]. *)
Fixpoint count_slash (s : string) : nat :=
  match s with
  | EmptyString => 0
  | String c s' => (if Ascii.eqb c "/"%char then 1 else 0) + count_slash s'
  end.

(** ** Notions used to state the properties *)

(** The plane of shape [(h, w)] whose pixels all hold [v]. *)
Definition uniform (h w : nat) (v : Z) : ndarray Z :=
  {| ncols := w; rows := replicate h (replicate w v) |}.

(** The upper-left corners of the tiles of an [h] x [w] plane, row-major:
    [y] is the outer coordinate and [x] the inner one. *)
Definition scan_positions (h w th tw : nat) : list (nat * nat) :=
  i ← seq 0 (ceil_div h th); j ← seq 0 (ceil_div w tw); [(i * th, j * tw)].

(** Writing tile [t] into [canvas] with its upper-left corner at [(y, x)]. *)
Definition paste (canvas : ndarray Z) (y x : nat) (t : ndarray Z) : ndarray Z :=
  {| ncols := ncols canvas;
     rows := imap (λ i row,
               if decide (y ≤ i) then
                 match rows t !! (i - y) with
                 | Some trow => list_inserts x trow row
                 | None => row
                 end
               else row) (rows canvas) |}.

(** Putting one tile, given with its corner, on a canvas. *)
Definition put (canvas : ndarray Z) (pt : (nat * nat) * ndarray Z) : ndarray Z :=
  paste canvas pt.1.1 pt.1.2 pt.2.

(** Starting from an empty [h] x [w] canvas, put every tile at its position. *)
Definition reconstruct (h w : nat) (placed : list ((nat * nat) * ndarray Z)) : ndarray Z :=
  foldl put (zeros h w) placed.

(** A three-channel stack of 1 x 1 planes. *)
Definition three_channels : dask_array :=
  Stack 1 1 [Array2 1 [[1%Z]]; Array2 1 [[2%Z]]; Array2 1 [[3%Z]]].

(** The metadata of a stack calibrated at a quarter of a micrometre. *)
Definition quarter_micron_metadata : gmap string ome_value :=
  <["PhysicalSizeYUnit" := OmeStr "µm"]> (<["PhysicalSizeY" := OmeStr "0.25"]>
    (<["PhysicalSizeXUnit" := OmeStr "µm"]> (<["PhysicalSizeX" := OmeStr "0.25"]>
      (<["Creator" := OmeStr "zarr-ometiff"]> ∅)))).

(** What a file system with nothing in it looks like. *)
Definition empty_world : world := {| dirs := ∅; files := ∅ |}.

(** The header bytes found in [file]; none when the file does not exist. *)
Definition written_header_bytes (w : world) (file : path) : nat :=
  match files w !! file with
  | Some f => length (header f)
  | None => 0
  end.

(** The [options] dictionary of [write_pyramidal_ome_tiff]. *)
Definition writer_options (tile_size : Z) (compression : option string)
    (ome_metadata : gmap string ome_value) : options :=
  {| opt_tile := (tile_size, tile_size);
     opt_photometric := "minisblack";
     opt_compression := compression;
     opt_metadata := ome_metadata;
     opt_software := _creator |}.

(** The [tif.write] calls of one run, in the order they are made. *)
Definition write_calls (rounded : list Z → Z) (img_stack : dask_array) (o : options)
    (max_levels : Z) (downsample_method : string) : list write_args :=
  level0_args rounded img_stack o max_levels downsample_method
    :: (level_args rounded img_stack o downsample_method <$> py_range1 max_levels).

(** Stand-ins for what the models leave open, for examples on concrete
    inputs.  The examples that use them stay within what the models compute,
    so that no stand-in is consulted. *)
Definition never_rounded : list Z → Z := λ _, 0%Z.
Definition never_mismatched : write_args → list (ndarray Z) → res unit := λ _ _, Ok tt.

(** The header of a file that holds at least one image. *)
Definition bigtiff_header_linked : list Byte.byte := link_first_directory bigtiff_header.

(** The image a call leaves in the file once its iterator is drained. *)
Definition drained (c : write_args) : page := Page c (data c ()).1.

(** A one-channel stack with a single pixel. *)
Definition one_pixel : dask_array := Stack 1 1 [Array2 1 [[7%Z]]].

(** A one-channel stack with a 2 x 2 plane. *)
Definition one_channel : dask_array := Stack 2 2 [Array2 2 [[1; 2]; [3; 4]]%Z].

(** Position [p] is the corner of a [th] x [tw] tile that contains pixel
    [(i, j)]. *)
Definition covers (th tw : nat) (p : nat * nat) (i j : nat) : Prop :=
  (p.1 ≤ i < p.1 + th) ∧ (p.2 ≤ j < p.2 + tw).

(** A single-channel 2050 x 2050 stack. *)
Definition plane_2050 : dask_array := Stack 2050 2050 [uniform 2050 2050 0].

(** The metadata of a stack without names or calibration. *)
Definition creator_only : gmap string ome_value := <["Creator" := OmeStr "zarr-ometiff"]> ∅.

(** The tile of [image] whose corner is [p]. *)
Definition tile_at (image : ndarray Z) (th tw : nat) (p : nat * nat) : ndarray Z :=
  slice2 image p.1 (p.1 + th) p.2 (p.2 + tw).

(** [canvas] is a rectangular array of the shape of [image]. *)
Definition same_shape (image canvas : ndarray Z) : Prop :=
  rectangular canvas ∧ nrows canvas = nrows image ∧ ncols canvas = ncols image.

(** Between [w] and [w'] no file other than [file] has changed and no
    directory has gone. *)
Definition untouched_elsewhere (file : path) (w w' : world) : Prop :=
  (∀ other, other ≠ file → files w' !! other = files w !! other) ∧ dirs w ⊆ dirs w'.

(** * Properties *)

(** ** Arithmetic of rounded-up division *)

Lemma ceil_div_1 n : ceil_div n 1 = n.
Proof. unfold ceil_div. rewrite Nat.add_0_r. apply Nat.div_1_r. Qed.

Lemma ceil_div_bounds n k :
  1 ≤ k → n ≤ ceil_div n k * k ∧ ceil_div n k * k < n + k.
Proof.
  intros Hk. unfold ceil_div.
  pose proof (Nat.div_mod_eq (n + (k - 1)) k) as E.
  pose proof (Nat.mod_upper_bound (n + (k - 1)) k ltac:(lia)) as B.
  nia.
Qed.

Lemma ceil_div_unique n k q :
  1 ≤ k → n ≤ q * k → q * k < n + k → ceil_div n k = q.
Proof.
  intros Hk H1 H2. destruct (ceil_div_bounds n k Hk) as [B1 B2]. nia.
Qed.

Lemma ceil_div_lt n k i : 1 ≤ k → i < ceil_div n k ↔ i * k < n.
Proof. intros Hk. destruct (ceil_div_bounds n k Hk). split; nia. Qed.

(** ** Strided slices *)

(** ** The float quotient of the declared shapes *)

Lemma Z_ceil_div (h d : Z) : (0 < d)%Z → (- ((- h) / d) = (h + (d - 1)) / d)%Z.
Proof.
  intros Hd. apply Z.div_unique with (r := (d - 1 - (- h) mod d)%Z).
  - left. pose proof (Z.mod_pos_bound (- h) d Hd). lia.
  - pose proof (Z.div_mod (- h) d ltac:(lia)). lia.
Qed.

Lemma ceil_div_Z (h d : nat) :
  1 ≤ d → Z.of_nat (ceil_div h d) = (- ((- Z.of_nat h) / Z.of_nat d))%Z.
Proof.
  intros Hd. rewrite Z_ceil_div by lia. unfold ceil_div.
  rewrite Nat2Z.inj_div, Nat2Z.inj_add, Nat2Z.inj_sub by done. done.
Qed.

(** For a side below 2^53 and a level up to 1074 the float quotient
    [h / 2**level] is exact, and its ceiling is the rounded-up integer
    quotient. *)
Lemma ceil_truediv_pow2_exact (h level : nat) :
  (Z.of_nat h < 2 ^ 53)%Z → level ≤ 1074 →
  ceil_truediv_pow2 h level = ceil_div h (2 ^ level).
Proof.
  intros Hh Hl. apply Nat2Z.inj.
  assert (1 ≤ 2 ^ level) as Hpow.
  { clear. induction level as [|k IH]; simpl; lia. }
  rewrite ceil_div_Z by done. rewrite Nat2Z.inj_pow. change (Z.of_nat 2) with 2%Z.
  unfold ceil_truediv_pow2, truediv_pow2.
  destruct (Z.eqb_spec (Z.of_nat h) 0) as [E|E].
  { rewrite E. simpl. done. }
  set (H := Z.of_nat h) in *. set (k := Z.of_nat level).
  assert (0 < H)%Z as HH by lia. assert (0 ≤ k ≤ 1074)%Z as Hk by lia.
  assert (Z.log2 H < 53)%Z as Hbits by (apply Z.log2_lt_pow2; lia).
  pose proof (Z.log2_nonneg H) as Hlog.
  set (e := Z.max (Z.log2 H + 1 - k - 53) (- 1074)).
  assert (k + e ≤ 0)%Z as Hs by lia.
  assert (0 < 2 ^ k)%Z as Hpk by (apply Z.pow_pos_nonneg; lia).
  unfold round_half_even_shift. destruct (Z.leb_spec (k + e) 0) as [_|?]; [|lia].
  cbn [ceil_float].
  destruct (Z.leb_spec 0 e) as [He|He].
  - assert (k = 0%Z) as Ek by lia. assert (e = 0%Z) as -> by lia.
    rewrite Ek. simpl. rewrite Z.div_1_r.
    rewrite Z2Nat.id by lia. lia.
  - assert (0 ≤ - ((- (H * 2 ^ (- (k + e)))) / 2 ^ (- e)))%Z as Hnn.
    { rewrite Z_ceil_div by (apply Z.pow_pos_nonneg; lia).
      apply Z.div_pos; [|apply Z.pow_pos_nonneg; lia].
      assert (0 < 2 ^ (- e))%Z by (apply Z.pow_pos_nonneg; lia).
      assert (0 ≤ 2 ^ (- (k + e)))%Z by (apply Z.pow_nonneg; lia). nia. }
    rewrite Z2Nat.id by done.
    replace (- e)%Z with (- (k + e) + k)%Z by lia.
    rewrite Z.pow_add_r by lia.
    rewrite <- Z.mul_opp_l, (Z.mul_comm (- H)).
    rewrite Z.div_mul_cancel_l; [done|lia|].
    apply Z.pow_nonzero; lia.
Qed.

(** Beyond that the quotient is rounded: from level 1075 on, small sides
    come out as 0. *)
Example ceil_truediv_pow2_values :
  ceil_truediv_pow2 2050 1 = 1025 ∧ ceil_truediv_pow2 2050 2 = 513
  ∧ ceil_truediv_pow2 1 1074 = 1 ∧ ceil_truediv_pow2 1 1075 = 0
  ∧ ceil_truediv_pow2 3 1075 = 1 ∧ ceil_truediv_pow2 2 1076 = 0
  ∧ ceil_truediv_pow2 3 1076 = 1 ∧ ceil_truediv_pow2 5 1077 = 1.
Proof. vm_compute. done. Qed.

Lemma every_from_lookup {A} (k skip : nat) (l : list A) (i : nat) :
  1 ≤ k → every_from k skip l !! i = l !! (skip + i * k).
Proof.
  intros Hk. revert skip i.
  induction l as [|x l IH]; intros skip i; simpl; [done|].
  destruct skip as [|n].
  - destruct i as [|i]; [done|]. simpl. rewrite IH.
    replace (k + i * k) with (S (k - 1 + i * k)) by lia. done.
  - by rewrite IH.
Qed.

Lemma every_from_length {A} (k skip : nat) (l : list A) :
  1 ≤ k → length (every_from k skip l) = ceil_div (length l - skip) k.
Proof.
  intros Hk. revert skip.
  induction l as [|x l IH]; intros skip; simpl.
  - symmetry. apply ceil_div_unique; lia.
  - destruct skip as [|n]; simpl; [|by rewrite IH].
    rewrite IH. symmetry.
    assert (∃ d, d = length l - (k - 1)) as [d Hd] by eauto. rewrite <- Hd.
    destruct (ceil_div_bounds d k Hk).
    assert (ceil_div d k = 0 ∧ length l < k - 1 ∨ length l = d + (k - 1)) as [[-> ?]|?].
    { destruct (decide (k - 1 ≤ length l)); [right; lia|left].
      split; [|lia]. apply ceil_div_unique; lia. }
    all: apply ceil_div_unique; lia.
Qed.

Lemma step_pos_lookup {A} (s : Z) (l : list A) (i : nat) :
  (1 ≤ s)%Z → step s l !! i = l !! (i * Z.to_nat s).
Proof.
  intros Hs. unfold step.
  destruct (Z.ltb_spec 0 s); [|lia].
  rewrite every_from_lookup by lia. done.
Qed.

Lemma step_length {A} (s : Z) (l : list A) :
  s ≠ 0%Z → length (step s l) = ceil_div (length l) (Z.abs_nat s).
Proof.
  intros Hs. unfold step.
  destruct (Z.ltb_spec 0 s).
  - rewrite every_from_length by lia. rewrite Nat.sub_0_r. f_equal. lia.
  - rewrite every_from_length by lia. rewrite length_reverse, Nat.sub_0_r. f_equal. lia.
Qed.

Lemma step2_shape {A} (a out : ndarray A) (s : Z) :
  step2 a s = Ok out →
  shape out = (ceil_div (nrows a) (Z.abs_nat s), ceil_div (ncols a) (Z.abs_nat s)).
Proof.
  unfold step2. destruct (Z.eqb_spec s 0); [done|].
  intros [= <-]. unfold shape, nrows. simpl.
  by rewrite length_fmap, step_length.
Qed.

Lemma step_elem_of {A} (s : Z) (l : list A) x : s ≠ 0%Z → x ∈ step s l → x ∈ l.
Proof.
  intros Hs Hx. apply list_elem_of_lookup in Hx as [i Hi]. unfold step in Hi.
  destruct (Z.ltb_spec 0 s); rewrite every_from_lookup in Hi by lia.
  - by eapply list_elem_of_lookup_2.
  - apply list_elem_of_lookup_2 in Hi. by rewrite elem_of_reverse in Hi.
Qed.

Lemma step2_rectangular {A} (a out : ndarray A) (s : Z) :
  rectangular a → step2 a s = Ok out → rectangular out.
Proof.
  intros Ha. unfold step2. destruct (Z.eqb_spec s 0); [done|].
  intros [= <-]. unfold rectangular in *. simpl.
  apply Forall_fmap, Forall_forall. intros r Hr. simpl.
  rewrite step_length by done. f_equal.
  rewrite Forall_forall in Ha. eauto using step_elem_of.
Qed.

Lemma step2_item {A} (a out : ndarray A) (s : Z) (i j : nat) :
  (1 ≤ s)%Z → step2 a s = Ok out →
  item out i j = item a (i * Z.to_nat s) (j * Z.to_nat s).
Proof.
  intros Hs. unfold step2. destruct (Z.eqb_spec s 0); [lia|].
  intros [= <-]. unfold item. simpl.
  rewrite list_lookup_fmap, step_pos_lookup by done.
  destruct (rows a !! (i * Z.to_nat s)) as [r|]; simpl; [|done].
  by apply step_pos_lookup.
Qed.

(** ** Block means *)

Lemma after_width_ceil n f : 1 ≤ f → n + after_width n f = ceil_div n f * f.
Proof.
  intros Hf. unfold after_width.
  pose proof (Nat.div_mod_eq n f) as E.
  pose proof (Nat.mod_upper_bound n f ltac:(lia)) as B.
  destruct (Nat.eqb_spec (n mod f) 0) as [Hz|Hz].
  - rewrite (ceil_div_unique n f (n / f)); nia.
  - rewrite (ceil_div_unique n f (S (n / f))); nia.
Qed.

Lemma padded_div n f : 1 ≤ f → (n + after_width n f) / f = ceil_div n f.
Proof. intros Hf. rewrite after_width_ceil by done. apply Nat.div_mul. lia. Qed.

Lemma sum_list_app xs ys : sum_list (xs ++ ys) = (sum_list xs + sum_list ys)%Z.
Proof. induction xs as [|x xs IH]; simpl; [done|]. rewrite IH. lia. Qed.

Lemma sum_list_replicate n v : sum_list (replicate n v) = (Z.of_nat n * v)%Z.
Proof. induction n as [|n IH]; simpl; [done|]. rewrite IH. lia. Qed.

Lemma slice_length {A} lo hi (l : list A) :
  length (slice lo hi l) = min (hi - lo) (length l - lo).
Proof. unfold slice. by rewrite length_take, length_drop. Qed.

(** Slicing a list that was extended with [n] copies of [c] gives the slice
    of the list, extended with copies of [c]. *)
Lemma slice_app_replicate {A} lo hi (l : list A) n c :
  ∃ m, slice lo hi (l ++ replicate n c) = slice lo hi l ++ replicate m c.
Proof.
  unfold slice. rewrite drop_app, take_app, drop_replicate, take_replicate.
  eauto.
Qed.

Lemma sum_slice_zero_padded lo hi l n :
  sum_list (slice lo hi (l ++ replicate n 0%Z)) = sum_list (slice lo hi l).
Proof.
  destruct (slice_app_replicate lo hi l n 0%Z) as [m ->].
  rewrite sum_list_app, sum_list_replicate. lia.
Qed.

Lemma sum_concat_app xss yss :
  sum_list (concat (xss ++ yss)) = (sum_list (concat xss) + sum_list (concat yss))%Z.
Proof. by rewrite concat_app, sum_list_app. Qed.

Lemma sum_concat_replicate m xs :
  sum_list (concat (replicate m xs)) = (Z.of_nat m * sum_list xs)%Z.
Proof. induction m as [|m IH]; simpl; [done|]. rewrite sum_list_app, IH. lia. Qed.

Lemma sum_concat_zero_rows m k lo hi :
  sum_list (concat (replicate m (slice lo hi (replicate k 0%Z)))) = 0%Z.
Proof.
  rewrite sum_concat_replicate. unfold slice.
  rewrite drop_replicate, take_replicate, sum_list_replicate. lia.
Qed.

Lemma length_concat_square {A} (xss : list (list A)) f :
  length xss = f → Forall (λ r, length r = f) xss → length (concat xss) = f * f.
Proof.
  intros Hlen Hall. revert Hlen.
  generalize f at 1 3 as g. intros g Hlen. revert g Hlen.
  induction Hall as [|r rs Hr _ IH]; intros g <-; simpl; [done|].
  rewrite length_app, (IH (length rs)) by done. lia.
Qed.

Lemma elem_of_slice {A} lo hi (l : list A) x : x ∈ slice lo hi l → x ∈ l.
Proof. unfold slice. intros H. by apply subseteq_take, subseteq_drop in H. Qed.

Lemma slice_fmap {A B} (g : A → B) lo hi (l : list A) :
  slice lo hi (g <$> l) = g <$> slice lo hi l.
Proof. unfold slice. by rewrite <- fmap_drop, <- fmap_take. Qed.

Lemma sum_concat_slices_padded lo hi pw (rs : list (list Z)) :
  sum_list (concat (slice lo hi <$> ((λ r, r ++ replicate pw 0%Z) <$> rs)))
  = sum_list (concat (slice lo hi <$> rs)).
Proof.
  induction rs as [|r rs IH]; [done|].
  rewrite !fmap_cons. cbn [concat].
  by rewrite !sum_list_app, IH, sum_slice_zero_padded.
Qed.

(** The real pixels of block [(i, j)] are what the padded block sums up. *)
Lemma block_pad_sum (img : ndarray Z) f ph pw i j :
  sum_list (block (pad img ph pw 0%Z) f i j) = sum_list (block img f i j).
Proof.
  unfold block, pad. simpl.
  destruct (slice_app_replicate (i * f) (i * f + f)
              ((λ r, r ++ replicate pw 0%Z) <$> rows img) ph
              (replicate (ncols img + pw) 0%Z)) as [m ->].
  rewrite fmap_app, sum_concat_app, fmap_replicate.
  rewrite sum_concat_zero_rows, Z.add_0_r.
  by rewrite slice_fmap, sum_concat_slices_padded.
Qed.

(** Every block of the padded image holds [f * f] values. *)
Lemma block_pad_length (img : ndarray Z) f i j :
  1 ≤ f → rectangular img →
  i < ceil_div (nrows img) f → j < ceil_div (ncols img) f →
  length (block (pad img (after_width (nrows img) f) (after_width (ncols img) f) 0%Z) f i j)
  = f * f.
Proof.
  intros Hf Hrect Hi Hj. unfold block.
  pose proof (after_width_ceil (nrows img) f Hf) as Eh.
  pose proof (after_width_ceil (ncols img) f Hf) as Ew.
  apply length_concat_square.
  - rewrite length_fmap, slice_length. unfold pad; simpl.
    rewrite length_app, length_fmap, length_replicate.
    unfold nrows in *. nia.
  - apply Forall_fmap, Forall_forall. intros r Hr. simpl.
    assert (length r = ncols img + after_width (ncols img) f) as Hlen.
    { apply elem_of_slice in Hr. unfold pad in Hr; simpl in Hr.
      apply elem_of_app in Hr as [Hr|Hr].
      - apply list_elem_of_fmap in Hr as (r0 & -> & Hr0).
        rewrite length_app, length_replicate. f_equal.
        unfold rectangular in Hrect. rewrite Forall_forall in Hrect. eauto.
      - apply elem_of_replicate in Hr as [-> _]. by rewrite length_replicate. }
    rewrite slice_length, Hlen. nia.
Qed.

Lemma downsample_box {rounded : list Z → Z} (img : ndarray Z) (factor : Z) :
  (2 ≤ factor)%Z →
  _downsample_image rounded img factor "box"
  = Ok (astype_int rounded (block_reduce_mean img (Z.to_nat factor) 0%Z)).
Proof.
  intros Hf. unfold _downsample_image, downscale_local_mean.
  destruct (Z.eqb_spec factor 1); [lia|].
  destruct (Z.ltb_spec factor 1); [lia|]. done.
Qed.

Lemma nrows_pad {A} (a : ndarray A) ph pw c : nrows (pad a ph pw c) = nrows a + ph.
Proof.
  unfold nrows, pad. simpl. by rewrite length_app, length_fmap, length_replicate.
Qed.

Lemma box_shape {rounded : list Z → Z} (img : ndarray Z) f :
  1 ≤ f →
  shape (astype_int rounded (block_reduce_mean img f 0%Z))
  = (ceil_div (nrows img) f, ceil_div (ncols img) f).
Proof.
  intros Hf. unfold shape, block_reduce_mean, astype_int.
  unfold nrows at 1. cbn [rows ncols].
  rewrite !length_fmap, length_seq, nrows_pad.
  unfold pad. cbn [ncols]. by rewrite !padded_div.
Qed.

Lemma box_rectangular {rounded : list Z → Z} (img : ndarray Z) f :
  rectangular (astype_int rounded (block_reduce_mean img f 0%Z)).
Proof.
  unfold rectangular. simpl. apply Forall_fmap, Forall_fmap, Forall_forall.
  intros i _. simpl. by rewrite !length_fmap, length_seq.
Qed.

Lemma sum_list_bounds (xs : list Z) (lo hi : Z) :
  Forall (λ x, lo ≤ x ≤ hi)%Z xs →
  (Z.of_nat (length xs) * lo ≤ sum_list xs ≤ Z.of_nat (length xs) * hi)%Z.
Proof.
  induction 1 as [|x xs Hx _ IH]; simpl; [lia|].
  change (foldr Z.add 0%Z xs) with (sum_list xs). lia.
Qed.

Lemma sum_abs_bound (xs : list Z) (bound : Z) :
  Forall (λ x, Z.abs x ≤ bound)%Z xs →
  (sum_abs xs ≤ Z.of_nat (length xs) * bound)%Z.
Proof.
  induction 1 as [|x xs Hx _ IH]; simpl; [lia|].
  change (foldr (λ x acc, Z.abs x + acc)%Z 0%Z xs) with (sum_abs xs). lia.
Qed.

Lemma length_concat_le {A} (xss : list (list A)) f :
  length xss ≤ f → Forall (λ r, length r ≤ f) xss → length (concat xss) ≤ f * f.
Proof.
  intros Hlen Hall. revert Hlen. generalize f at 1 3 as g. intros g Hlen. revert g Hlen.
  induction Hall as [|r rs Hr _ IH]; intros g Hg; simpl in *; [lia|].
  rewrite length_app. specialize (IH (g - 1) ltac:(lia)). nia.
Qed.

Lemma block_pixels {A} (img : ndarray A) f i j x :
  x ∈ block img f i j → ∃ r, r ∈ rows img ∧ x ∈ r.
Proof.
  unfold block. intros Hx.
  apply list_elem_of_In, in_concat in Hx as (r' & Hr' & Hx).
  apply list_elem_of_In in Hr', Hx.
  apply list_elem_of_fmap in Hr' as (r & -> & Hr).
  exists r. eauto using elem_of_slice.
Qed.

(** A value of a block of the padded image is a pixel of the image or the
    padding value. *)
Lemma block_pad_pixels (img : ndarray Z) f ph pw i j x :
  x ∈ block (pad img ph pw 0%Z) f i j → x = 0%Z ∨ ∃ r, r ∈ rows img ∧ x ∈ r.
Proof.
  intros Hx. apply block_pixels in Hx as (r' & Hr' & Hx).
  unfold pad in Hr'. cbn [rows] in Hr'.
  apply elem_of_app in Hr' as [Hr'|Hr'].
  - apply list_elem_of_fmap in Hr' as (r & -> & Hr).
    apply elem_of_app in Hx as [Hx|Hx]; [eauto|].
    apply elem_of_replicate in Hx as [-> _]. by left.
  - apply elem_of_replicate in Hr' as [-> _].
    apply elem_of_replicate in Hx as [-> _]. by left.
Qed.

Lemma block_length_le (img : ndarray Z) f i j : length (block img f i j) ≤ f * f.
Proof.
  unfold block. apply length_concat_le.
  - rewrite length_fmap, slice_length. lia.
  - apply Forall_fmap, Forall_forall. intros r _. simpl. rewrite slice_length. lia.
Qed.

(** When the pixels are bounded so that [f * f] of them, and their count,
    add up to less than 2^53, the mean of every block is computed without a
    visible rounding error. *)
Lemma block_float_exact (img : ndarray Z) f i j (bound : Z) :
  1 ≤ f → rectangular img →
  i < ceil_div (nrows img) f → j < ceil_div (ncols img) f →
  (∀ r x, r ∈ rows img → x ∈ r → (Z.abs x ≤ bound)%Z) →
  (0 ≤ bound)%Z → (Z.of_nat (f * f) * (bound + 1) < 2 ^ 53)%Z →
  float_exact (block (pad img (after_width (nrows img) f)
                              (after_width (ncols img) f) 0%Z) f i j) = true.
Proof.
  intros Hf Hrect Hi Hj Hpix Hb Hsmall. unfold float_exact.
  set (xs := block _ f i j).
  assert (length xs = f * f) as Hlen by (by apply block_pad_length).
  assert (Forall (λ x, Z.abs x ≤ bound)%Z xs) as Hall.
  { apply Forall_forall. intros x Hx.
    apply block_pad_pixels in Hx as [->|(r & Hr & Hx)]; [lia|eauto]. }
  apply sum_abs_bound in Hall. rewrite Hlen in *.
  apply Z.ltb_lt. lia.
Qed.

(** Each output pixel of the block mean is, for pixels so bounded, the sum
    of the real pixels of its block, divided by [f * f] and rounded toward
    zero. *)
Lemma box_item {rounded : list Z → Z} (img : ndarray Z) f i j (bound : Z) :
  1 ≤ f → rectangular img →
  i < ceil_div (nrows img) f → j < ceil_div (ncols img) f →
  (∀ r x, r ∈ rows img → x ∈ r → (Z.abs x ≤ bound)%Z) →
  (0 ≤ bound)%Z → (Z.of_nat (f * f) * (bound + 1) < 2 ^ 53)%Z →
  item (astype_int rounded (block_reduce_mean img f 0%Z)) i j
  = Some (Z.quot (sum_list (block img f i j)) (Z.of_nat (f * f))).
Proof.
  intros Hf Hrect Hi Hj Hpix Hb Hsmall. unfold item, block_reduce_mean, astype_int.
  cbn [rows ncols].
  set (padded := pad img _ _ 0%Z).
  assert (nrows padded / f = ceil_div (nrows img) f) as ->
    by (unfold padded; rewrite nrows_pad; by apply padded_div).
  assert (ncols padded / f = ceil_div (ncols img) f) as ->
    by (unfold padded, pad; cbn [ncols]; by apply padded_div).
  rewrite !list_lookup_fmap, lookup_seq_lt by done.
  cbn [fmap option_fmap option_map mbind option_bind Nat.add].
  rewrite !list_lookup_fmap, lookup_seq_lt by done.
  cbn [fmap option_fmap option_map Nat.add].
  f_equal. unfold mean. subst padded.
  rewrite (block_float_exact img f i j bound) by done.
  cbn [Qnum Qden].
  rewrite block_pad_sum, block_pad_length by done.
  f_equal. destruct (f * f) as [|n] eqn:E; [nia|]. lia.
Qed.

(** The block mean of pixels so bounded stays within the range of the pixels
    (and of the padding value 0), so casting it back to the element type of
    the image cannot wrap around. *)
Lemma box_item_range {rounded : list Z → Z} (img : ndarray Z) f i j (lo hi : Z) :
  1 ≤ f → rectangular img →
  i < ceil_div (nrows img) f → j < ceil_div (ncols img) f →
  (lo ≤ 0 ≤ hi)%Z →
  (∀ r x, r ∈ rows img → x ∈ r → (lo ≤ x ≤ hi)%Z) →
  (Z.of_nat (f * f) * (Z.max (- lo) hi + 1) < 2 ^ 53)%Z →
  ∃ v, item (astype_int rounded (block_reduce_mean img f 0%Z)) i j = Some v
       ∧ (lo ≤ v ≤ hi)%Z.
Proof.
  intros Hf Hrect Hi Hj H0 Hpix Hsmall. eexists. split.
  { apply (box_item img f i j (Z.max (- lo) hi)); try done; [|lia].
    intros r x Hr Hx. specialize (Hpix r x Hr Hx). lia. }
  assert (Forall (λ x, lo ≤ x ≤ hi)%Z (block img f i j)) as Hall.
  { apply Forall_forall. intros x Hx.
    apply block_pixels in Hx as (r & Hr & Hx). eauto. }
  apply sum_list_bounds in Hall.
  pose proof (block_length_le img f i j) as Hlen.
  set (n := Z.of_nat (f * f)) in *. assert (0 < n)%Z by (subst n; nia).
  split.
  - rewrite <- (Z.quot_mul lo n) by lia. apply Z.quot_le_mono; [lia|]. nia.
  - rewrite <- (Z.quot_mul hi n) by lia. apply Z.quot_le_mono; [lia|]. nia.
Qed.

Lemma block_uniform h w v f i j :
  sum_list (block (uniform h w v) f i j)
  = (Z.of_nat (min f (h - i * f)) * (Z.of_nat (min f (w - j * f)) * v))%Z.
Proof.
  unfold block, uniform, slice. simpl.
  rewrite drop_replicate, take_replicate, fmap_replicate.
  rewrite drop_replicate, take_replicate.
  rewrite sum_concat_replicate, sum_list_replicate.
  replace (i * f + f - i * f) with f by lia.
  replace (j * f + f - j * f) with f by lia. done.
Qed.

Lemma uniform_rectangular h w v : rectangular (uniform h w v).
Proof.
  unfold rectangular, uniform. simpl. apply Forall_replicate, length_replicate.
Qed.

Lemma uniform_item h w v i j : i < h → j < w → item (uniform h w v) i j = Some v.
Proof.
  intros Hi Hj. unfold item, uniform. simpl.
  rewrite lookup_replicate_2 by done. simpl. by apply lookup_replicate_2.
Qed.

(** ** Downsampling *)

Example downsample_box_3x3 :
  _downsample_image never_rounded (Array2 3 [[10; 10; 10]; [10; 10; 10]; [10; 10; 10]]%Z) 2 "box"
  = Ok (Array2 2 [[10; 5]; [5; 2]]%Z).
Proof. reflexivity. Qed.

Example downsample_nn_3x3 :
  _downsample_image never_rounded (Array2 3 [[1; 2; 3]; [4; 5; 6]; [7; 8; 9]]%Z) 2 "nearest neighbor"
  = Ok (Array2 2 [[1; 3]; [7; 9]]%Z).
Proof. reflexivity. Qed.

Example downsample_nn_neg :
  _downsample_image never_rounded (Array2 3 [[1; 2; 3]; [4; 5; 6]; [7; 8; 9]]%Z) (-1) "nearest neighbor"
  = Ok (Array2 3 [[9; 8; 7]; [6; 5; 4]; [3; 2; 1]]%Z).
Proof. reflexivity. Qed.

Lemma downsample_image_shape {rounded : list Z → Z} (img : ndarray Z) (factor : Z) (method : string) :
  rectangular img → (1 ≤ factor)%Z →
  ∃ out, _downsample_image rounded img factor method = Ok out
       ∧ shape out = (ceil_div (nrows img) (Z.to_nat factor),
                      ceil_div (ncols img) (Z.to_nat factor))
       ∧ rectangular out
       ∧ (factor = 1%Z → out = img).
Proof.
  intros Hrect Hf.
  destruct (decide (factor = 1%Z)) as [->|Hne].
  { exists img. split; [reflexivity|]. repeat split; try done.
    change (Z.to_nat 1) with 1. unfold shape. by rewrite !ceil_div_1. }
  destruct (String.eqb_spec method "box") as [->|Hm].
  - eexists. rewrite downsample_box by lia.
    repeat split; [apply box_shape; lia|apply box_rectangular|done].
  - unfold _downsample_image.
    destruct (Z.eqb_spec factor 1); [done|].
    destruct (String.eqb_spec method "box"); [done|].
    destruct (step2 img factor) as [out|e] eqn:E.
    + exists out. repeat split; [|by eapply step2_rectangular|done].
      rewrite (step2_shape _ _ _ E). by rewrite Zabs2Nat.abs_nat_nonneg by lia.
    + unfold step2 in E. destruct (Z.eqb_spec factor 0); [lia|done].
Qed.

(** C4: for a plane of shape (H, W), every factor >= 1 and every method name,
    downsampling succeeds with an output of shape
    (ceil(H/factor), ceil(W/factor)), and with factor 1 the output is the
    input plane itself. *)
Theorem downsample_shape {rounded : list Z → Z} (img : ndarray Z) (factor : Z) (method : string) :
  rectangular img → (1 ≤ factor)%Z →
  ∃ out, _downsample_image rounded img factor method = Ok out
       ∧ shape out = (ceil_div (nrows img) (Z.to_nat factor),
                      ceil_div (ncols img) (Z.to_nat factor))
       ∧ rectangular out
       ∧ (factor = 1%Z → out = img).
Proof. apply downsample_image_shape. Qed.

Lemma downsample_shape_witness :
  ∃ out, _downsample_image never_rounded (Array2 3 [[1; 2; 3]; [4; 5; 6]]%Z) 2 "box" = Ok out
       ∧ shape out = (1, 2) ∧ rectangular out ∧ (2 = 1 → out = Array2 3 [[1; 2; 3]; [4; 5; 6]])%Z.
Proof.
  apply (downsample_shape (Array2 3 [[1; 2; 3]; [4; 5; 6]]%Z) 2 "box").
  - repeat constructor.
  - lia.
Defined.

(** C10: with a factor >= 2 and any method name other than "box", known or
    not, downsampling raises nothing and keeps the pixels at every
    factor-th row and column counted from (0, 0). *)
Theorem downsample_other_method_decimates {rounded : list Z → Z} (img : ndarray Z) (factor : Z) (method : string) :
  (2 ≤ factor)%Z → method ≠ "box" →
  ∃ out, _downsample_image rounded img factor method = Ok out
       ∧ shape out = (ceil_div (nrows img) (Z.to_nat factor),
                      ceil_div (ncols img) (Z.to_nat factor))
       ∧ ∀ i j, item out i j = item img (i * Z.to_nat factor) (j * Z.to_nat factor).
Proof.
  intros Hf Hm. unfold _downsample_image.
  destruct (Z.eqb_spec factor 1); [lia|].
  destruct (String.eqb_spec method "box"); [done|].
  destruct (step2 img factor) as [out|e] eqn:E.
  - exists out. split; [done|]. split.
    + rewrite (step2_shape _ _ _ E). by rewrite Zabs2Nat.abs_nat_nonneg by lia.
    + intros i j. apply step2_item; [lia|done].
  - unfold step2 in E. destruct (Z.eqb_spec factor 0); [lia|done].
Qed.

Lemma downsample_other_method_decimates_witness :
  ∃ out, _downsample_image never_rounded (Array2 3 [[1; 2; 3]; [4; 5; 6]; [7; 8; 9]]%Z) 2 "bilinear" = Ok out
       ∧ shape out = (2, 2)
       ∧ ∀ i j, item out i j
                = item (Array2 3 [[1; 2; 3]; [4; 5; 6]; [7; 8; 9]]%Z) (i * 2) (j * 2).
Proof.
  apply (downsample_other_method_decimates
           (Array2 3 [[1; 2; 3]; [4; 5; 6]; [7; 8; 9]]%Z) 2 "bilinear").
  - lia.
  - discriminate.
Defined.

Lemma reverse_lookup_last {A} (l : list A) i :
  i < length l → reverse l !! i = l !! (length l - 1 - i).
Proof.
  intros Hi. rewrite reverse_lookup by done. f_equal. lia.
Qed.

Lemma step_neg_lookup {A} (s : Z) (l : list A) (i : nat) :
  (s < 0)%Z → i < ceil_div (length l) (Z.abs_nat s) →
  step s l !! i = l !! (length l - 1 - i * Z.abs_nat s).
Proof.
  intros Hs Hi. unfold step.
  destruct (Z.ltb_spec 0 s); [lia|].
  rewrite every_from_lookup by lia. simpl.
  replace (Z.to_nat (- s)) with (Z.abs_nat s) by lia.
  apply reverse_lookup_last. apply ceil_div_lt in Hi; lia.
Qed.

Lemma uniform_pixels h w v r x : r ∈ rows (uniform h w v) → x ∈ r → x = v.
Proof.
  unfold uniform. cbn [rows]. intros Hr Hx.
  apply elem_of_replicate in Hr as [-> _]. by apply elem_of_replicate in Hx as [-> _].
Qed.

(** C1, as the code has it, for planes of an integer type: the block mean
    pads trailing partial blocks with zeros.  When the pixels are at most
    [bound] in absolute value and factor * factor * (bound + 1) is below
    2^53, so that the float64 mean is exact, every output pixel is the sum
    of the real pixels of its block divided by factor * factor, rounded
    toward zero; on a plane of one uniform value the output holds that value
    at every pixel whose block lies inside the plane, hence everywhere when
    the factor divides both sides, and for factor 1 the plane is returned as
    it is. *)
Theorem block_mean_zero_padded {rounded : list Z → Z} (img : ndarray Z) (h w : nat)
    (v : Z) (factor : Z) (bound : Z) :
  rectangular img → (1 ≤ factor)%Z →
  (0 ≤ bound)%Z → (factor * factor * (bound + 1) < 2 ^ 53)%Z →
  (∀ r x, r ∈ rows img → x ∈ r → (Z.abs x ≤ bound)%Z) →
  (Z.abs v ≤ bound)%Z →
  let f := Z.to_nat factor in
  (∃ out, _downsample_image rounded img factor "box" = Ok out
     ∧ ((2 ≤ factor)%Z → ∀ i j,
          i < ceil_div (nrows img) f → j < ceil_div (ncols img) f →
          item out i j = Some (Z.quot (sum_list (block img f i j)) (Z.of_nat (f * f)))))
  ∧ (∃ out, _downsample_image rounded (uniform h w v) factor "box" = Ok out
     ∧ ∀ i j, i * f + f ≤ h → j * f + f ≤ w → item out i j = Some v).
Proof.
  intros Hrect Hf Hb Hsmall Hpix Hv f.
  destruct (decide (factor = 1%Z)) as [->|Hne].
  { split.
    - exists img. split; [reflexivity|]. lia.
    - exists (uniform h w v). split; [reflexivity|].
      intros i j Hi Hj. change (Z.to_nat 1) with 1 in f. subst f.
      apply uniform_item; lia. }
  assert (1 ≤ f) as Hf1 by (subst f; lia).
  assert (Z.of_nat (f * f) * (bound + 1) < 2 ^ 53)%Z as Hsmall'.
  { subst f. rewrite Nat2Z.inj_mul, Z2Nat.id by lia. done. }
  split.
  - eexists. rewrite downsample_box by lia. split; [done|].
    intros _ i j Hi Hj. by apply (box_item img f i j bound).
  - eexists. rewrite downsample_box by lia. split; [done|].
    intros i j Hi Hj. fold f.
    rewrite (box_item (uniform h w v) f i j bound); try done.
    + f_equal. rewrite block_uniform.
      replace (min f (h - i * f)) with f by lia.
      replace (min f (w - j * f)) with f by lia.
      replace (Z.of_nat f * (Z.of_nat f * v))%Z with (v * Z.of_nat (f * f))%Z by lia.
      apply Z.quot_mul. lia.
    + apply uniform_rectangular.
    + apply ceil_div_lt; [done|]. unfold uniform, nrows. simpl.
      rewrite length_replicate. lia.
    + apply ceil_div_lt; [done|]. unfold uniform. simpl. lia.
    + intros r x Hr Hx. by rewrite (uniform_pixels h w v r x).
Qed.

Lemma block_mean_zero_padded_witness :
  (∃ out, _downsample_image never_rounded (Array2 3 [[1; 2; 3]; [4; 5; 6]]%Z) 2 "box" = Ok out
     ∧ ((2 ≤ 2)%Z → ∀ i j,
          i < ceil_div 2 2 → j < ceil_div 3 2 →
          item out i j
          = Some (Z.quot (sum_list (block (Array2 3 [[1; 2; 3]; [4; 5; 6]]%Z) 2 i j))
                         (Z.of_nat (2 * 2)))))
  ∧ (∃ out, _downsample_image never_rounded (uniform 4 4 7) 2 "box" = Ok out
     ∧ ∀ i j, i * 2 + 2 ≤ 4 → j * 2 + 2 ≤ 4 → item out i j = Some 7%Z).
Proof.
  apply (block_mean_zero_padded (Array2 3 [[1; 2; 3]; [4; 5; 6]]%Z) 4 4 7 2 255).
  - repeat constructor.
  - lia.
  - lia.
  - reflexivity.
  - intros r x Hr Hx.
    repeat (apply elem_of_cons in Hr as [->|Hr]);
      [| |by apply elem_of_nil in Hr];
      repeat (apply elem_of_cons in Hx as [->|Hx]); try lia;
      by apply elem_of_nil in Hx.
  - lia.
Defined.

(** C1 fails as stated: a uniform 3 x 3 plane of value 10, block-averaged
    by 2, comes back as 10, 5, 5, 2: the partial edge blocks are averaged
    over the padding zeros as well. *)
Lemma block_mean_uniform_edge_biased :
  (∀ rounded, _downsample_image rounded (uniform 3 3 10) 2 "box"
              = Ok (Array2 2 [[10; 5]; [5; 2]]%Z))
  ∧ item (Array2 2 [[10; 5]; [5; 2]]%Z) 1 1 ≠ Some 10%Z.
Proof. split; [intros rounded; reflexivity|discriminate]. Qed.

(** C5, as the code has it: a zero factor is refused for every method and a
    negative factor is refused by the block mean, both with the ValueError
    of the library call that receives the factor; a negative factor with
    any other method raises nothing and decimates by the absolute value of
    the factor, walking backwards from the last row and column. *)
Theorem downsample_factor_below_one {rounded : list Z → Z} (img : ndarray Z) (factor : Z) (method : string) :
  rectangular img → (factor < 1)%Z →
  (factor = 0%Z ∨ method = "box" →
     ∃ msg, _downsample_image rounded img factor method = Raise (ValueError msg))
  ∧ ((factor < 0)%Z → method ≠ "box" →
     ∃ out, _downsample_image rounded img factor method = Ok out
       ∧ shape out = (ceil_div (nrows img) (Z.abs_nat factor),
                      ceil_div (ncols img) (Z.abs_nat factor))
       ∧ ∀ i j, i < ceil_div (nrows img) (Z.abs_nat factor) →
                j < ceil_div (ncols img) (Z.abs_nat factor) →
                item out i j = item img (nrows img - 1 - i * Z.abs_nat factor)
                                        (ncols img - 1 - j * Z.abs_nat factor)).
Proof.
  intros Hrect Hf. unfold _downsample_image, downscale_local_mean, step2.
  destruct (Z.eqb_spec factor 1); [lia|].
  destruct (Z.ltb_spec factor 1); [|lia].
  split.
  - intros Hor. destruct (String.eqb_spec method "box"); simpl; [eauto|].
    destruct Hor as [->|?]; [|done]. simpl. eauto.
  - intros Hneg Hm. destruct (String.eqb_spec method "box"); [done|].
    destruct (Z.eqb_spec factor 0); [lia|].
    eexists. split; [done|]. split.
    + unfold shape, nrows. simpl. by rewrite length_fmap, step_length.
    + intros i j Hi Hj. unfold item. simpl.
      rewrite list_lookup_fmap, step_neg_lookup by done.
      fold (nrows img).
      destruct (rows img !! (nrows img - 1 - i * Z.abs_nat factor)) as [r|] eqn:Er;
        simpl; [|done].
      assert (length r = ncols img) as Hr.
      { unfold rectangular in Hrect. rewrite Forall_lookup in Hrect. eauto. }
      rewrite step_neg_lookup by (rewrite ?Hr; done). by rewrite Hr.
Qed.

Lemma downsample_factor_below_one_witness :
  (-2 = 0 ∨ "nearest neighbor" = "box" →
     ∃ msg, _downsample_image never_rounded (Array2 3 [[1; 2; 3]; [4; 5; 6]]%Z) (-2) "nearest neighbor"
            = Raise (ValueError msg))%Z
  ∧ ((-2 < 0)%Z → "nearest neighbor" ≠ "box" →
     ∃ out, _downsample_image never_rounded (Array2 3 [[1; 2; 3]; [4; 5; 6]]%Z) (-2) "nearest neighbor" = Ok out
       ∧ shape out = (ceil_div 2 2, ceil_div 3 2)
       ∧ ∀ i j, i < ceil_div 2 2 → j < ceil_div 3 2 →
                item out i j
                = item (Array2 3 [[1; 2; 3]; [4; 5; 6]]%Z) (2 - 1 - i * 2) (3 - 1 - j * 2)).
Proof.
  apply (downsample_factor_below_one (Array2 3 [[1; 2; 3]; [4; 5; 6]]%Z) (-2) "nearest neighbor").
  - repeat constructor.
  - lia.
Defined.

(** C5 fails as stated: with factor -1 and the nearest neighbour method the
    call raises nothing and returns the plane turned by half a turn. *)
Lemma downsample_negative_factor_accepted :
  (-1 < 1)%Z
  ∧ _downsample_image never_rounded (Array2 2 [[1; 2]; [3; 4]]%Z) (-1) "nearest neighbor"
    = Ok (Array2 2 [[4; 3]; [2; 1]]%Z).
Proof. split; [lia|reflexivity]. Qed.

(** ** Metadata *)

Section MetadataProperties.

Context {float : Type} (str : float → string).

Lemma creator_recorded (img_stack : dask_array) channel_names
    (pixel_size_um : option (float * float)) m :
  _make_ome_metadata str img_stack channel_names pixel_size_um = Ok m →
  m !! "Creator" = Some (OmeStr "zarr-ometiff").
Proof.
  unfold _make_ome_metadata. intros H.
  destruct pixel_size_um as [[y x]|], channel_names as [[|name names]|];
    try case_decide; simplify_eq; by simplify_map_eq.
Qed.

(** C8: with a calibration pair (y_um, x_um) the metadata that is built
    holds PhysicalSizeX = str(x_um) and PhysicalSizeY = str(y_um), both with
    unit "µm"; and whatever the calibration, the Creator string is recorded
    in every metadata record that is built. *)
Theorem calibration_recorded (img_stack : dask_array) channel_names
    (pixel_size_um : option (float * float)) m :
  _make_ome_metadata str img_stack channel_names pixel_size_um = Ok m →
  m !! "Creator" = Some (OmeStr _creator)
  ∧ ∀ y_um x_um, pixel_size_um = Some (y_um, x_um) →
      m !! "PhysicalSizeX" = Some (OmeStr (str x_um))
      ∧ m !! "PhysicalSizeXUnit" = Some (OmeStr "µm")
      ∧ m !! "PhysicalSizeY" = Some (OmeStr (str y_um))
      ∧ m !! "PhysicalSizeYUnit" = Some (OmeStr "µm").
Proof.
  intros H. split; [by eapply creator_recorded|].
  intros y x ->. unfold _make_ome_metadata in H.
  destruct channel_names as [[|name names]|];
    try case_decide; simplify_eq; by simplify_map_eq.
Qed.

(** C9: an empty list of channel names passes for no list at all: whatever
    the channel count, the builder succeeds, records no channel names and
    returns what it returns when the argument is absent. *)
Theorem empty_channel_names_unchecked (img_stack : dask_array)
    (pixel_size_um : option (float * float)) :
  ∃ m, _make_ome_metadata str img_stack (Some []) pixel_size_um = Ok m
     ∧ m !! "Channel" = None
     ∧ _make_ome_metadata str img_stack None pixel_size_um = Ok m.
Proof.
  unfold _make_ome_metadata. eexists. split; [done|]. split; [|done].
  destruct pixel_size_um as [[y x]|]; by simplify_map_eq.
Qed.

(** C7, as the code has it: for a list of channel names that is not empty,
    the builder fails (the assertion) exactly when the length of the list
    differs from the channel count, and when the lengths agree it records
    the names, in order, under Channel / Name. *)
Theorem channel_names_checked (img_stack : dask_array) (channel_names : list string)
    (pixel_size_um : option (float * float)) :
  channel_names ≠ [] →
  (_make_ome_metadata str img_stack (Some channel_names) pixel_size_um = Raise AssertionError
     ↔ length channel_names ≠ num_channels img_stack)
  ∧ (length channel_names = num_channels img_stack →
     ∃ m, _make_ome_metadata str img_stack (Some channel_names) pixel_size_um = Ok m
        ∧ m !! "Channel" = Some (OmeChannel channel_names)).
Proof.
  intros Hne. unfold _make_ome_metadata.
  destruct channel_names as [|name names]; [done|].
  case_decide as Hlen; split.
  - split; [done|]. intros ?. done.
  - intros _. eexists. split; [done|]. by simplify_map_eq.
  - done.
  - done.
Qed.

End MetadataProperties.

Lemma calibration_recorded_witness :
  _make_ome_metadata (λ s : string, s) three_channels None (Some ("0.25", "0.25"))
  = Ok quarter_micron_metadata
  ∧ quarter_micron_metadata !! "Creator" = Some (OmeStr _creator)
  ∧ ∀ y_um x_um : string, Some ("0.25", "0.25") = Some (y_um, x_um) →
      quarter_micron_metadata !! "PhysicalSizeX" = Some (OmeStr x_um)
      ∧ quarter_micron_metadata !! "PhysicalSizeXUnit" = Some (OmeStr "µm")
      ∧ quarter_micron_metadata !! "PhysicalSizeY" = Some (OmeStr y_um)
      ∧ quarter_micron_metadata !! "PhysicalSizeYUnit" = Some (OmeStr "µm").
Proof.
  split; [reflexivity|].
  apply (calibration_recorded (λ s : string, s) three_channels None (Some ("0.25", "0.25"))).
  reflexivity.
Defined.

Lemma channel_names_checked_witness :
  (_make_ome_metadata (λ s : string, s) three_channels (Some ["A"; "B"]) None = Raise AssertionError
     ↔ length ["A"; "B"] ≠ num_channels three_channels)
  ∧ (length ["A"; "B"] = num_channels three_channels →
     ∃ m, _make_ome_metadata (λ s : string, s) three_channels (Some ["A"; "B"]) None = Ok m
        ∧ m !! "Channel" = Some (OmeChannel ["A"; "B"])).
Proof.
  apply (channel_names_checked (λ s : string, s) three_channels ["A"; "B"] None).
  discriminate.
Defined.

(** C7 fails as stated: an empty list of names is present and its length, 0,
    differs from the channel count, 3, yet the builder succeeds. *)
Lemma empty_channel_names_not_rejected :
  length ([] : list string) ≠ num_channels three_channels
  ∧ _make_ome_metadata (λ s : string, s) three_channels (Some []) None
    = Ok (<["Creator" := OmeStr "zarr-ometiff"]> ∅).
Proof. split; [discriminate|reflexivity]. Qed.

(** ** The writer *)

Lemma gen_for_ends {A B} (xs : list A) (body : A → gen B) :
  (∀ x, (body x).2 = None) → (gen_for xs body).2 = None.
Proof.
  intros Hbody. induction xs as [|x xs IH]; simpl; [done|].
  specialize (Hbody x). destruct (body x) as [ys [e|]]; simpl in *; [done|].
  by destruct (gen_for xs body).
Qed.

Lemma gen_for_range_ends {B} stop (step : Z) (body : nat → gen B) :
  (1 ≤ step)%Z → (∀ y, (body y).2 = None) → (gen_for_range stop step body).2 = None.
Proof.
  intros Hs Hbody. unfold gen_for_range, py_range0.
  destruct (Z.eqb_spec step 0); [lia|].
  destruct (Z.ltb_spec step 0); [lia|].
  by apply gen_for_ends.
Qed.

Lemma image_tiles_ends (image : ndarray Z) (th tw : Z) :
  (1 ≤ th)%Z → (1 ≤ tw)%Z → (image_tiles image th tw).2 = None.
Proof.
  intros Hh Hw. unfold image_tiles.
  apply gen_for_range_ends; [done|]. intros y.
  apply gen_for_range_ends; [done|]. done.
Qed.

Lemma downsample_ok {rounded : list Z → Z} (img : ndarray Z) (factor : Z) (method : string) :
  (1 ≤ factor)%Z → ∃ out, _downsample_image rounded img factor method = Ok out.
Proof.
  intros Hf. unfold _downsample_image, downscale_local_mean, step2.
  destruct (Z.eqb_spec factor 1); [eauto|].
  destruct (Z.ltb_spec factor 1); [lia|].
  destruct (Z.eqb_spec factor 0); [lia|].
  destruct (String.eqb method "box"); simpl; eauto.
Qed.

Lemma tiles_generator_ends {rounded : list Z → Z} (img_stack : dask_array) (th tw factor : Z) (method : string) :
  (1 ≤ th)%Z → (1 ≤ tw)%Z → (1 ≤ factor)%Z →
  (_tiles_generator rounded img_stack (th, tw) factor method).2 = None.
Proof.
  intros Hh Hw Hf. unfold _tiles_generator.
  apply gen_for_ends. intros image.
  destruct (downsample_ok (rounded := rounded) image factor method Hf) as [out ->].
  by apply image_tiles_ends.
Qed.

Lemma tile_ok_positive (t : Z) : tile_ok (t, t) = true → (1 ≤ t)%Z.
Proof. unfold tile_ok. simpl. lia. Qed.

Lemma write_appends {mismatched : write_args → list (ndarray Z) → res unit}
    (file : path) (c : write_args) (w : world) (f : tiff_file) :
  tile_ok (tile c) = true → (data c ()).2 = None →
  length (data c ()).1 = tiles_needed c → files w !! file = Some f →
  ∃ w', write mismatched file c w = (Ok tt, w')
      ∧ files w' !! file
        = Some {| header := link_first_directory (header f);
                  pages := pages f ++ [drained c] |}.
Proof.
  intros Ht Hd Hn Hf. unfold write, drained. rewrite Ht.
  destruct (data c ()) as [tiles e]. simpl in *. subst e.
  rewrite decide_True by done.
  eexists. split; [done|]. simpl.
  rewrite lookup_alter_eq, Hf. done.
Qed.

Lemma io_for_write_appends {mismatched : write_args → list (ndarray Z) → res unit} {A}
    (file : path) (g : A → write_args) (xs : list A) (w : world) (f : tiff_file) :
  (∀ x, x ∈ xs → tile_ok (tile (g x)) = true ∧ (data (g x) ()).2 = None
                 ∧ length (data (g x) ()).1 = tiles_needed (g x)) →
  link_first_directory (header f) = header f →
  files w !! file = Some f →
  ∃ w', io_for xs (λ x, write mismatched file (g x)) w = (Ok tt, w')
      ∧ files w' !! file
        = Some {| header := header f; pages := pages f ++ (drained <$> (g <$> xs)) |}.
Proof.
  revert w f.
  induction xs as [|x xs IH]; intros w f Hg Hlink Hf; simpl.
  - exists w. split; [done|]. rewrite app_nil_r. by destruct f.
  - destruct (Hg x) as (Ht & Hd & Hn); [by left|].
    destruct (write_appends (mismatched := mismatched) file (g x) w f Ht Hd Hn Hf)
      as (w1 & E1 & F1).
    unfold io_bind. rewrite E1. rewrite Hlink in F1.
    assert (∀ y, y ∈ xs → tile_ok (tile (g y)) = true ∧ (data (g y) ()).2 = None
                          ∧ length (data (g y) ()).1 = tiles_needed (g y)) as Hg'
      by (intros y Hy; apply Hg; by right).
    destruct (IH w1 {| header := header f; pages := pages f ++ [drained (g x)] |}
                Hg' Hlink F1) as (w2 & E2 & F2).
    exists w2. split; [done|]. rewrite F2. simpl. by rewrite <- app_assoc.
Qed.

Lemma io_for_app {A} (xs ys : list A) (body : A → io unit) (w : world) :
  io_for (xs ++ ys) body w = io_bind (io_for xs body) (λ _, io_for ys body) w.
Proof.
  revert w. induction xs as [|x xs IH]; intros w; [done|].
  cbn [app io_for]. unfold io_bind.
  destruct (body x w) as [[u|e] w1]; [|done]. by rewrite IH.
Qed.

Lemma py_range1_lookup (n : Z) (k : nat) :
  (Z.of_nat k < n - 1)%Z → py_range1 n !! k = Some (S k).
Proof. intros Hk. unfold py_range1. rewrite lookup_seq_lt by lia. done. Qed.

Lemma pow2_pos (k : nat) : 1 ≤ 2 ^ k.
Proof. induction k as [|k IH]; simpl; lia. Qed.

Section WriterProperties.

Context {float : Type} (str : float → string).

(** C2, as the code has it: nothing in the writer looks at tile_size.  If
    the channel names are refused, that happens before the file system is
    touched; otherwise a run with tile_size = 0 creates the parent directory
    of the destination (no directory goes), opens the destination and writes
    its header, and only then fails, in the first image write, with the
    library's ValueError: the destination is left holding the 16 header
    bytes and no image. *)
Theorem write_tile_size_zero {rounded : list Z → Z}
    {mismatched : write_args → list (ndarray Z) → res unit}
    (img_stack : dask_array) (file : path)
    (channel_names : option (list string)) (pixel_size_um : option (float * float))
    (compression : option string) (max_levels : Z) (method : string) (w : world) :
  match _make_ome_metadata str img_stack channel_names pixel_size_um with
  | Raise e =>
      write_pyramidal_ome_tiff rounded mismatched str img_stack file channel_names
        pixel_size_um compression 0 max_levels method w = (Raise e, w)
  | Ok _ =>
      ∃ msg w', write_pyramidal_ome_tiff rounded mismatched str img_stack file
                  channel_names pixel_size_um compression 0 max_levels method w
                = (Raise (ValueError msg), w')
          ∧ dirs w ⊆ dirs w'
          ∧ (removelast file ≠ [] → removelast file ∈ dirs w')
          ∧ files w' !! file = Some {| header := bigtiff_header; pages := [] |}
          ∧ written_header_bytes w' file = 16
  end.
Proof.
  unfold write_pyramidal_ome_tiff, io_bind, io_lift.
  destruct (_make_ome_metadata str img_stack channel_names pixel_size_um) as [m|e];
    [|done].
  cbn [mkdir_parents TiffWriter]. unfold write at 1.
  cbn [tile level0_args opt_tile]. change (tile_ok (0, 0)%Z) with false.
  unfold io_raise. do 2 eexists. split; [done|]. cbn [files dirs].
  split; [apply union_subseteq_l|]. split.
  - intros Hnil. apply elem_of_union_r, elem_of_list_to_set, list_elem_of_fmap.
    exists (length (removelast file)). split; [by rewrite firstn_all|].
    apply elem_of_seq. destruct (removelast file); [done|simpl; lia].
  - unfold written_header_bytes. cbn [files]. by rewrite lookup_insert_eq.
Qed.

End WriterProperties.

(** C2 fails as stated: on an empty file system a run with tile_size = 0 ends
    with the ValueError, and by then the directory exists and the
    destination holds 16 bytes. *)
Lemma write_tile_size_zero_rejected_late :
  (∀ rounded mismatched,
     let run := write_pyramidal_ome_tiff rounded mismatched (λ s : string, s) one_channel
                  ["out"; "image.tif"] None None None 0 3 "box" empty_world in
     (∃ msg, run.1 = Raise (ValueError msg))
     ∧ ["out"] ∈ dirs run.2
     ∧ written_header_bytes run.2 ["out"; "image.tif"] = 16)
  ∧ written_header_bytes empty_world ["out"; "image.tif"] = 0.
Proof.
  split; [|reflexivity]. intros rounded mismatched run.
  split; [by eexists|]. split; [|reflexivity].
  subst run. cbn. set_solver.
Qed.

(** ** Tiles *)

Lemma range_loop_seq (fuel y stop step : nat) :
  1 ≤ step → ceil_div (stop - y) step ≤ fuel →
  range_loop fuel y stop step = (λ i, y + i * step) <$> seq 0 (ceil_div (stop - y) step).
Proof.
  intros Hs. revert y. induction fuel as [|fuel IH]; intros y Hfuel; simpl.
  - replace (ceil_div (stop - y) step) with 0 by lia. done.
  - destruct (Nat.ltb_spec y stop) as [Hlt|Hge].
    + assert (ceil_div (stop - y) step = S (ceil_div (stop - (y + step)) step)) as E.
      { destruct (decide (y + step ≤ stop)).
        - destruct (ceil_div_bounds (stop - (y + step)) step Hs).
          apply ceil_div_unique; [done|nia|nia].
        - replace (stop - (y + step)) with 0 by lia.
          rewrite (ceil_div_unique 0 step 0) by lia.
          apply ceil_div_unique; lia. }
      rewrite E in *. rewrite IH by lia.
      cbn [seq fmap list_fmap]. f_equal; [lia|].
      rewrite <- (fmap_S_seq 0), <- list_fmap_compose.
      apply list_fmap_ext. intros _ i _. simpl. lia.
    + replace (stop - y) with 0 by lia.
      replace (ceil_div 0 step) with 0; [done|].
      symmetry. apply ceil_div_unique; lia.
Qed.

Lemma py_range0_positive (stop : nat) (step : Z) :
  (1 ≤ step)%Z →
  py_range0 stop step
  = Ok ((λ i, i * Z.to_nat step) <$> seq 0 (ceil_div stop (Z.to_nat step))).
Proof.
  intros Hs. unfold py_range0.
  destruct (Z.eqb_spec step 0); [lia|].
  destruct (Z.ltb_spec step 0); [lia|].
  f_equal. rewrite range_loop_seq.
  - by rewrite Nat.sub_0_r.
  - lia.
  - rewrite Nat.sub_0_r. destruct (ceil_div_bounds stop (Z.to_nat step)); nia.
Qed.

Lemma gen_for_normal {A B} (xs : list A) (body : A → gen B) :
  (∀ x, (body x).2 = None) →
  gen_for xs body = (xs ≫= (λ x, (body x).1), None).
Proof.
  intros Hbody. induction xs as [|x xs IH]; [done|].
  cbn [gen_for]. rewrite IH, bind_cons. specialize (Hbody x).
  destruct (body x) as [ys [e|]]; simpl in *; done.
Qed.

Lemma bind_ext_all {A B} (f g : A → list B) (l : list A) :
  (∀ x, f x = g x) → l ≫= f = l ≫= g.
Proof.
  intros Hfg. induction l as [|x l IH]; [done|]. by rewrite !bind_cons, Hfg, IH.
Qed.

Lemma fmap_of_bind {A B C} (f : B → C) (k : A → list B) (l : list A) :
  f <$> (l ≫= k) = l ≫= (λ x, f <$> k x).
Proof.
  induction l as [|x l IH]; [done|]. by rewrite !bind_cons, fmap_app, IH.
Qed.

(** The tiles of an image, as a list: one slice per scan position. *)
Lemma image_tiles_scan (image : ndarray Z) (tile_height tile_width : Z) :
  (1 ≤ tile_height)%Z → (1 ≤ tile_width)%Z →
  let th := Z.to_nat tile_height in
  let tw := Z.to_nat tile_width in
  image_tiles image tile_height tile_width
  = ((λ p, slice2 image p.1 (p.1 + th) p.2 (p.2 + tw))
       <$> scan_positions (nrows image) (ncols image) th tw, None).
Proof.
  intros Hh Hw th tw. unfold image_tiles, gen_for_range.
  rewrite !py_range0_positive by done. fold th tw.
  rewrite gen_for_normal.
  2:{ intros y. by rewrite gen_for_normal. }
  f_equal. unfold scan_positions.
  rewrite list_fmap_bind, fmap_of_bind.
  apply bind_ext_all. intros i. cbn [compose].
  rewrite gen_for_normal by done. cbn [fst].
  rewrite list_fmap_bind, fmap_of_bind.
  apply bind_ext_all. intros j. done.
Qed.

Lemma length_bind_const {A B} (k : A → list B) (l : list A) n :
  (∀ x, length (k x) = n) → length (l ≫= k) = length l * n.
Proof.
  intros Hk. induction l as [|x l IH]; [done|].
  rewrite bind_cons, length_app, Hk, IH. simpl. lia.
Qed.

Lemma scan_positions_length h w th tw :
  length (scan_positions h w th tw) = ceil_div h th * ceil_div w tw.
Proof.
  unfold scan_positions.
  rewrite (length_bind_const _ _ (ceil_div w tw)), length_seq; [done|].
  intros i. rewrite (length_bind_const _ _ 1), length_seq; [lia|done].
Qed.

Lemma elem_of_scan_positions h w th tw y x :
  1 ≤ th → 1 ≤ tw →
  (y, x) ∈ scan_positions h w th tw
  ↔ ∃ i j, y = i * th ∧ x = j * tw ∧ y < h ∧ x < w.
Proof.
  intros Hh Hw. unfold scan_positions.
  rewrite list_elem_of_bind. split.
  - intros (i & Hin & Hi). apply list_elem_of_bind in Hin as (j & Hin & Hj).
    apply list_elem_of_singleton in Hin. injection Hin as -> ->.
    apply elem_of_seq in Hi, Hj. exists i, j.
    repeat split; apply ceil_div_lt; lia.
  - intros (i & j & -> & -> & Hi & Hj).
    exists i. split.
    + apply list_elem_of_bind. exists j. split; [by apply list_elem_of_singleton|].
      apply elem_of_seq. split; [lia|]. simpl. by apply ceil_div_lt.
    + apply elem_of_seq. split; [lia|]. simpl. by apply ceil_div_lt.
Qed.

(** Two arrays of one shape with the same pixels are the same array. *)
Lemma ndarray_ext (a b : ndarray Z) :
  nrows a = nrows b → ncols a = ncols b → rectangular a → rectangular b →
  (∀ i j, i < nrows a → j < ncols a → item a i j = item b i j) → a = b.
Proof.
  destruct a as [wa ra], b as [wb rb]. unfold nrows, rectangular, item. simpl.
  intros Hh -> Ha Hb Hitem. f_equal.
  rewrite Forall_lookup in Ha. rewrite Forall_lookup in Hb.
  apply list_eq. intros i.
  destruct (decide (i < length ra)) as [Hi|Hi].
  - destruct (lookup_lt_is_Some_2 ra i Hi) as [r Hr].
    destruct (lookup_lt_is_Some_2 rb i ltac:(lia)) as [r' Hr'].
    rewrite Hr, Hr'. f_equal. apply list_eq. intros j.
    destruct (decide (j < wb)) as [Hj|Hj].
    + specialize (Hitem i j Hi Hj). by rewrite Hr, Hr' in Hitem.
    + rewrite !lookup_ge_None_2; [done| |].
      * rewrite (Hb _ _ Hr'). lia.
      * rewrite (Ha _ _ Hr). lia.
  - rewrite !lookup_ge_None_2 by lia. done.
Qed.

Lemma slice2_row (image : ndarray Z) y x th tw k :
  rows (slice2 image y (y + th) x (x + tw)) !! k
  = if decide (k < th) then slice x (x + tw) <$> rows image !! (y + k) else None.
Proof.
  unfold slice2, slice. simpl.
  rewrite list_lookup_fmap, lookup_take.
  replace (y + th - y) with th by lia.
  case_decide; [|done]. by rewrite lookup_drop.
Qed.

Lemma slice2_shape (image : ndarray Z) y x th tw :
  rectangular image → y ≤ nrows image → x ≤ ncols image →
  shape (slice2 image y (y + th) x (x + tw))
  = (min th (nrows image - y), min tw (ncols image - x))
  ∧ rectangular (slice2 image y (y + th) x (x + tw)).
Proof.
  intros Hrect Hy Hx. unfold shape, nrows, rectangular, slice2 in *. simpl. split.
  - rewrite length_fmap, slice_length. f_equal; lia.
  - apply Forall_fmap, Forall_forall. intros r Hr. simpl.
    apply elem_of_slice in Hr. rewrite Forall_forall in Hrect.
    rewrite slice_length, (Hrect r Hr). lia.
Qed.

Lemma paste_shape (canvas t : ndarray Z) y x :
  rectangular canvas →
  nrows (paste canvas y x t) = nrows canvas
  ∧ ncols (paste canvas y x t) = ncols canvas
  ∧ rectangular (paste canvas y x t).
Proof.
  intros Hrect. unfold nrows, rectangular, paste in *. simpl.
  split; [apply length_imap|]. split; [done|].
  rewrite Forall_lookup in Hrect. apply Forall_lookup. intros i r.
  rewrite list_lookup_imap.
  destruct (rows canvas !! i) as [row|] eqn:E; simpl; [|done].
  intros [= <-]. specialize (Hrect _ _ E).
  case_decide; [|done].
  destruct (rows t !! (i - y)); [|done]. by rewrite length_inserts.
Qed.

(** Pasting a tile cut from [image] gives the pixels of [image] inside the
    tile's rectangle and leaves the canvas as it was outside. *)
Lemma paste_item (canvas image : ndarray Z) y x th tw i j :
  rectangular canvas → rectangular image →
  nrows canvas = nrows image → ncols canvas = ncols image →
  i < nrows image → j < ncols image →
  item (paste canvas y x (slice2 image y (y + th) x (x + tw))) i j
  = if decide ((y ≤ i < y + th) ∧ (x ≤ j < x + tw))
    then item image i j else item canvas i j.
Proof.
  intros Hc Him Hh Hw Hi Hj. unfold item, paste. cbn [rows].
  rewrite list_lookup_imap.
  unfold rectangular, nrows in *.
  rewrite Forall_lookup in Hc. rewrite Forall_lookup in Him.
  destruct (lookup_lt_is_Some_2 (rows canvas) i ltac:(lia)) as [row Hrow].
  destruct (lookup_lt_is_Some_2 (rows image) i ltac:(lia)) as [irow Hirow].
  rewrite Hrow, Hirow. cbn -[slice2].
  pose proof (Hc _ _ Hrow) as Lrow. pose proof (Him _ _ Hirow) as Lirow.
  destruct (decide (y ≤ i)) as [Hyi|Hyi].
  2:{ rewrite decide_False by lia. done. }
  rewrite slice2_row.
  destruct (decide (i - y < th)) as [Hith|Hith].
  2:{ rewrite decide_False by lia. done. }
  replace (y + (i - y)) with i by lia. rewrite Hirow. cbn -[slice].
  destruct (decide (x ≤ j < x + tw)) as [Hxj|Hxj].
  - rewrite decide_True by lia.
    rewrite list_lookup_inserts.
    + unfold slice. rewrite lookup_take_lt, lookup_drop by lia. f_equal. lia.
    + rewrite slice_length. lia.
    + lia.
  - rewrite decide_False by lia.
    destruct (decide (j < x)).
    + by rewrite list_lookup_inserts_lt.
    + rewrite list_lookup_inserts_ge; [done|]. rewrite slice_length. lia.
Qed.

Section PasteTiles.

Variables (image : ndarray Z) (th tw : nat).
Hypothesis image_rectangular : rectangular image.

Lemma zip_tile_at (ps : list (nat * nat)) :
zip ps (tile_at image th tw <$> ps) = (λ p, (p, tile_at image th tw p)) <$> ps.
Proof. induction ps as [|p ps IH]; [done|]. simpl. f_equal. exact IH. Qed.

Lemma put_same_shape canvas p :
same_shape image canvas → same_shape image (put canvas (p, tile_at image th tw p)).
Proof.
intros (Hr & Hh & Hw). unfold put, same_shape. cbn [fst snd].
destruct (paste_shape canvas (tile_at image th tw p) p.1 p.2 Hr) as (Eh & Ew & ?).
by rewrite Eh, Ew.
Qed.

Lemma fold_put_same_shape canvas ps :
same_shape image canvas →
same_shape image (foldl put canvas ((λ p, (p, tile_at image th tw p)) <$> ps)).
Proof.
revert canvas. induction ps as [|p ps IH]; intros canvas Hc; [done|].
simpl. apply IH. by apply put_same_shape.
Qed.

Lemma put_item canvas p i j :
same_shape image canvas → i < nrows image → j < ncols image →
item (put canvas (p, tile_at image th tw p)) i j
= if decide (covers th tw p i j) then item image i j else item canvas i j.
Proof.
intros (Hr & Hh & Hw) Hi Hj. unfold put, tile_at, covers. simpl.
by apply paste_item.
Qed.

Lemma fold_put_outside canvas ps i j :
same_shape image canvas → i < nrows image → j < ncols image →
Forall (λ p, ¬ covers th tw p i j) ps →
item (foldl put canvas ((λ p, (p, tile_at image th tw p)) <$> ps)) i j = item canvas i j.
Proof.
intros Hc Hi Hj Hout. revert canvas Hc.
induction Hout as [|p ps Hp _ IH]; intros canvas Hc; [done|].
simpl. rewrite IH by (by apply put_same_shape).
rewrite put_item by done. by rewrite decide_False.
Qed.

Lemma fold_put_inside canvas ps i j :
same_shape image canvas → i < nrows image → j < ncols image →
Exists (λ p, covers th tw p i j) ps →
item (foldl put canvas ((λ p, (p, tile_at image th tw p)) <$> ps)) i j = item image i j.
Proof.
intros Hc Hi Hj Hin. revert canvas Hc.
induction ps as [|p ps IH]; intros canvas Hc; [by apply Exists_nil in Hin|].
simpl.
assert (Decision (Exists (λ p, covers th tw p i j) ps)) as [Hrest|Hrest].
{ apply Exists_dec. intros q. unfold covers. apply _. }
- apply IH; [done|]. by apply put_same_shape.
- apply Exists_cons in Hin as [Hp|?]; [|done].
  rewrite fold_put_outside; [| by apply put_same_shape |done|done|].
  + rewrite put_item by done. by rewrite decide_True.
  + by apply Forall_Exists_neg.
Qed.

(** Putting the tiles of every scan position back gives the image. *)
Lemma reconstruct_scan :
1 ≤ th → 1 ≤ tw →
let positions := scan_positions (nrows image) (ncols image) th tw in
reconstruct (nrows image) (ncols image) (zip positions (tile_at image th tw <$> positions))
= image.
Proof.
intros Hth Htw positions. unfold reconstruct. rewrite zip_tile_at.
assert (same_shape image (zeros (nrows image) (ncols image))) as Hz.
{ unfold same_shape, rectangular, nrows, zeros. simpl.
  rewrite length_replicate. repeat split.
  apply Forall_replicate, length_replicate. }
destruct (fold_put_same_shape _ positions Hz) as (Hr & Hh & Hw).
apply ndarray_ext; try done.
intros i j Hi Hj. rewrite Hh in Hi. rewrite Hw in Hj.
apply fold_put_inside; try done.
apply Exists_exists. exists (i / th * th, j / tw * tw).
pose proof (Nat.div_mod_eq i th). pose proof (Nat.mod_upper_bound i th ltac:(lia)).
pose proof (Nat.div_mod_eq j tw). pose proof (Nat.mod_upper_bound j tw ltac:(lia)).
split.
- apply elem_of_scan_positions; [done..|].
  exists (i / th), (j / tw). repeat split; nia.
- unfold covers. simpl. nia.
Qed.

End PasteTiles.

(** C3: for a plane of shape (H, W) and positive tile sizes th, tw the tile
    loops (and so [_tiles_generator] on the one-channel stack of that plane,
    at factor 1) yield, without raising, exactly ceil(H/th) * ceil(W/tw)
    tiles; the tiles come in row-major scan order, the tile at corner (y, x)
    being the sub-block plane[y:y+th, x:x+tw], clipped at the plane boundary
    and never padded; and putting every tile back at its corner rebuilds the
    plane. *)
Theorem tiles_round_trip {rounded : list Z → Z} (image : ndarray Z) (tile_height tile_width : Z) :
  rectangular image → (1 ≤ tile_height)%Z → (1 ≤ tile_width)%Z →
  let th := Z.to_nat tile_height in
  let tw := Z.to_nat tile_width in
  let positions := scan_positions (nrows image) (ncols image) th tw in
  ∃ tiles,
    image_tiles image tile_height tile_width = (tiles, None)
    ∧ (∀ method, _tiles_generator rounded (Stack (nrows image) (ncols image) [image])
                   (tile_height, tile_width) 1 method = (tiles, None))
    ∧ length tiles = ceil_div (nrows image) th * ceil_div (ncols image) tw
    ∧ tiles = (λ p, slice2 image p.1 (p.1 + th) p.2 (p.2 + tw)) <$> positions
    ∧ Forall2 (λ p t, shape t = (min th (nrows image - p.1), min tw (ncols image - p.2))
                      ∧ rectangular t
                      ∧ ∀ i j, i < min th (nrows image - p.1) →
                               j < min tw (ncols image - p.2) →
                               item t i j = item image (p.1 + i) (p.2 + j))
              positions tiles
    ∧ reconstruct (nrows image) (ncols image) (zip positions tiles) = image.
Proof.
  intros Hrect Hh Hw th tw positions.
  eexists. split; [by apply image_tiles_scan|]. fold th tw positions.
  split.
  { intros method. unfold _tiles_generator. cbn [planes gen_for _downsample_image Z.eqb Pos.eqb].
    rewrite image_tiles_scan by done. fold th tw positions. by rewrite app_nil_r. }
  split; [by rewrite length_fmap; apply scan_positions_length|].
  split; [done|]. split.
  - subst positions.
    assert (1 ≤ th) as Hth by lia. assert (1 ≤ tw) as Htw by lia. clearbody th tw.
    apply Forall2_fmap_r, Forall_Forall2_diag, Forall_forall.
    intros [y x] Hp. cbn [fst snd].
    apply elem_of_scan_positions in Hp as (i0 & j0 & -> & -> & Hy & Hx); [|lia..].
    destruct (slice2_shape image (i0 * th) (j0 * tw) th tw Hrect) as [Hs Hr]; [lia..|].
    split; [done|]. split; [done|].
    intros i j Hi Hj. unfold item. cbn [fst snd]. rewrite slice2_row.
    rewrite decide_True by lia.
    destruct (lookup_lt_is_Some_2 (rows image) (i0 * th + i)) as [r Hrow];
      [fold (nrows image); lia|].
    rewrite Hrow. cbn -[slice].
    unfold slice. rewrite lookup_take_lt, lookup_drop by lia. done.
  - apply reconstruct_scan; [done|lia..].
Qed.

Lemma tiles_round_trip_witness :
  let image := Array2 3 [[1; 2; 3]; [4; 5; 6]; [7; 8; 9]]%Z in
  let positions := scan_positions 3 3 2 2 in
  ∃ tiles,
    image_tiles image 2 2 = (tiles, None)
    ∧ (∀ method, _tiles_generator never_rounded (Stack 3 3 [image]) (2, 2)%Z 1 method = (tiles, None))
    ∧ length tiles = ceil_div 3 2 * ceil_div 3 2
    ∧ tiles = (λ p, slice2 image p.1 (p.1 + 2) p.2 (p.2 + 2)) <$> positions
    ∧ Forall2 (λ p t, shape t = (min 2 (3 - p.1), min 2 (3 - p.2))
                      ∧ rectangular t
                      ∧ ∀ i j, i < min 2 (3 - p.1) → j < min 2 (3 - p.2) →
                               item t i j = item image (p.1 + i) (p.2 + j))
              positions tiles
    ∧ reconstruct 3 3 (zip positions tiles) = image.
Proof.
  apply (tiles_round_trip (Array2 3 [[1; 2; 3]; [4; 5; 6]; [7; 8; 9]]%Z) 2 2).
  - repeat constructor.
  - lia.
  - lia.
Defined.

Example tiles_3x3 :
  image_tiles (Array2 3 [[1; 2; 3]; [4; 5; 6]; [7; 8; 9]]%Z) 2 2
  = ([Array2 2 [[1; 2]; [4; 5]]; Array2 1 [[3]; [6]];
      Array2 2 [[7; 8]]; Array2 1 [[9]]]%Z, None).
Proof. reflexivity. Qed.

Example tiles_zero_step :
  image_tiles (Array2 3 [[1; 2; 3]; [4; 5; 6]; [7; 8; 9]]%Z) 0 0
  = ([], Some (ValueError "range() arg 3 must not be zero")).
Proof. reflexivity. Qed.

Example reconstruct_3x3 :
  reconstruct 3 3
    [((0, 0), Array2 2 [[1; 2]; [4; 5]]%Z); ((0, 2), Array2 1 [[3]; [6]]%Z);
     ((2, 0), Array2 2 [[7; 8]]%Z); ((2, 2), Array2 1 [[9]]%Z)]
  = Array2 3 [[1; 2; 3]; [4; 5; 6]; [7; 8; 9]]%Z.
Proof. reflexivity. Qed.

(** * Further properties of the notebook's functions *)

(** ** Downsampling, continued *)

Lemma ceil_div_ceil_div n a b :
  1 ≤ a → 1 ≤ b → ceil_div (ceil_div n a) b = ceil_div n (a * b).
Proof.
  intros Ha Hb.
  destruct (ceil_div_bounds n a Ha) as [A1 A2].
  destruct (ceil_div_bounds (ceil_div n a) b Hb) as [B1 B2].
  set (q1 := ceil_div n a) in *. set (q := ceil_div q1 b) in *.
  symmetry. apply ceil_div_unique; [nia| |].
  - assert (q1 * a ≤ q * b * a) by nia. nia.
  - assert (q * b ≤ q1 + b - 1) by lia.
    assert (q * b * a ≤ (q1 + b - 1) * a) by nia. nia.
Qed.

Lemma every_from_fmap {A B} (g : A → B) k skip (l : list A) :
  every_from k skip (g <$> l) = g <$> every_from k skip l.
Proof.
  revert skip. induction l as [|x l IH]; intros skip; [done|].
  rewrite fmap_cons. simpl. destruct skip; [|done].
  rewrite fmap_cons. f_equal. apply IH.
Qed.

Lemma every_every {A} a b (l : list A) :
  1 ≤ a → 1 ≤ b → every_from b 0 (every_from a 0 l) = every_from (a * b) 0 l.
Proof.
  intros Ha Hb. apply list_eq. intros i.
  rewrite !every_from_lookup by nia. f_equal. nia.
Qed.

Lemma step_pos {A} (s : Z) (l : list A) :
  (1 ≤ s)%Z → step s l = every_from (Z.to_nat s) 0 l.
Proof. intros Hs. unfold step. destruct (Z.ltb_spec 0 s); [done|lia]. Qed.

Lemma step_step {A} (a b : Z) (l : list A) :
  (1 ≤ a)%Z → (1 ≤ b)%Z → step b (step a l) = step (a * b) l.
Proof.
  intros Ha Hb. rewrite !step_pos by nia. rewrite every_every by lia.
  f_equal. lia.
Qed.

Lemma step_fmap {A B} (g : A → B) (s : Z) (l : list A) :
  (1 ≤ s)%Z → step s (g <$> l) = g <$> step s l.
Proof. intros Hs. rewrite !step_pos by done. apply every_from_fmap. Qed.

Lemma step2_pos {A} (img : ndarray A) (s : Z) :
  (1 ≤ s)%Z →
  step2 img s = Ok {| ncols := ceil_div (ncols img) (Z.to_nat s);
                      rows := step s <$> step s (rows img) |}.
Proof.
  intros Hs. unfold step2. destruct (Z.eqb_spec s 0); [lia|].
  by rewrite Zabs2Nat.abs_nat_nonneg by lia.
Qed.

Lemma step2_step2 {A} (img mid : ndarray A) (a b : Z) :
  (1 ≤ a)%Z → (1 ≤ b)%Z → step2 img a = Ok mid → step2 mid b = step2 img (a * b).
Proof.
  intros Ha Hb. rewrite !step2_pos by nia. intros [= <-]. simpl. f_equal. f_equal.
  - rewrite ceil_div_ceil_div by lia. f_equal. lia.
  - rewrite step_fmap, <- list_fmap_compose, step_step by done.
    apply list_fmap_ext. intros _ r _. simpl. by apply step_step.
Qed.

(** Decimating twice is decimating once by the product of the factors: with
    any method other than "box", downsampling by [a] and then by [b] gives
    what downsampling by [a * b] gives, so the pyramid levels written by
    decimation are each the previous level decimated by two. *)
Theorem decimation_composes {rounded : list Z → Z} (img : ndarray Z) (a b : Z) (method : string) :
  (1 ≤ a)%Z → (1 ≤ b)%Z → method ≠ "box" →
  ∃ mid, _downsample_image rounded img a method = Ok mid
       ∧ _downsample_image rounded mid b method = _downsample_image rounded img (a * b) method.
Proof.
  intros Ha Hb Hm. unfold _downsample_image.
  destruct (String.eqb_spec method "box"); [done|].
  destruct (Z.eqb_spec a 1) as [->|Ha1].
  { exists img. split; [done|]. by rewrite Z.mul_1_l. }
  rewrite (step2_pos img a) by done. eexists. split; [done|].
  destruct (Z.eqb_spec b 1) as [->|Hb1].
  { rewrite Z.mul_1_r. destruct (Z.eqb_spec a 1); [done|]. by rewrite step2_pos. }
  destruct (Z.eqb_spec (a * b) 1); [nia|].
  apply step2_step2; [done..|]. by apply step2_pos.
Qed.

Lemma decimation_composes_witness :
  ∃ mid, _downsample_image never_rounded (Array2 5 [[1; 2; 3; 4; 5]; [6; 7; 8; 9; 10]]%Z) 2 "nearest" = Ok mid
       ∧ _downsample_image never_rounded mid 2 "nearest"
         = _downsample_image never_rounded (Array2 5 [[1; 2; 3; 4; 5]; [6; 7; 8; 9; 10]]%Z) (2 * 2) "nearest".
Proof.
  apply (decimation_composes (Array2 5 [[1; 2; 3; 4; 5]; [6; 7; 8; 9; 10]]%Z) 2 2 "nearest").
  - lia.
  - lia.
  - discriminate.
Defined.

Lemma item_Some_bounds {A} (a : ndarray A) i j v :
  rectangular a → item a i j = Some v → i < nrows a ∧ j < ncols a.
Proof.
  intros Hrect. unfold item, nrows.
  destruct (rows a !! i) as [r|] eqn:Er; simpl; [|done]. intros Hj.
  unfold rectangular in Hrect. rewrite Forall_lookup in Hrect.
  split; [by eapply lookup_lt_Some|].
  rewrite <- (Hrect _ _ Er). by eapply lookup_lt_Some.
Qed.

Lemma item_Some_pixel {A} (a : ndarray A) i j v :
  item a i j = Some v → ∃ r, r ∈ rows a ∧ v ∈ r.
Proof.
  unfold item. destruct (rows a !! i) as [r|] eqn:Er; simpl; [|done]. intros Hj.
  exists r. split; by eapply list_elem_of_lookup_2.
Qed.

(** Downsampling planes of an integer type never leaves the range of the
    input: when every pixel of the plane lies in [lo, hi], 0 does too (the
    block mean pads with 0), and factor * factor * (max(-lo, hi) + 1) is
    below 2^53 (so that the float64 block mean is exact), every pixel of the
    output lies in [lo, hi], whatever the method and the factor >= 1.
    Casting such a block mean back to the element type of the image
    therefore cannot overflow. *)
Theorem downsample_stays_in_range {rounded : list Z → Z} (img : ndarray Z) (factor : Z)
    (method : string) (lo hi : Z) :
  rectangular img → (1 ≤ factor)%Z → (lo ≤ 0 ≤ hi)%Z →
  (factor * factor * (Z.max (- lo) hi + 1) < 2 ^ 53)%Z →
  (∀ r x, r ∈ rows img → x ∈ r → (lo ≤ x ≤ hi)%Z) →
  ∃ out, _downsample_image rounded img factor method = Ok out
       ∧ ∀ i j v, item out i j = Some v → (lo ≤ v ≤ hi)%Z.
Proof.
  intros Hrect Hf H0 Hsmall Hpix.
  destruct (decide (factor = 1%Z)) as [->|Hne].
  { exists img. split; [done|]. intros i j v Hv.
    apply item_Some_pixel in Hv as (r & Hr & Hv). eauto. }
  destruct (String.eqb_spec method "box") as [->|Hm].
  - eexists. rewrite downsample_box by lia. split; [done|].
    intros i j v Hv.
    pose proof (item_Some_bounds _ _ _ _
                  (box_rectangular (rounded := rounded) img (Z.to_nat factor)) Hv)
      as [Hi Hj].
    pose proof (box_shape (rounded := rounded) img (Z.to_nat factor) ltac:(lia)) as Hs.
    unfold shape in Hs. apply pair_equal_spec in Hs as [Hs1 Hs2].
    rewrite Hs1 in Hi. rewrite Hs2 in Hj.
    destruct (box_item_range (rounded := rounded) img (Z.to_nat factor) i j lo hi)
      as (v' & Hv' & Hr); [lia|done..| |].
    { rewrite Nat2Z.inj_mul, Z2Nat.id by lia. done. }
    rewrite Hv in Hv'. by injection Hv' as ->.
  - unfold _downsample_image.
    destruct (Z.eqb_spec factor 1); [done|].
    destruct (String.eqb_spec method "box"); [done|].
    rewrite step2_pos by done. eexists. split; [done|].
    intros i j v Hv.
    rewrite (step2_item img _ factor i j) in Hv; [|lia|by apply step2_pos].
    apply item_Some_pixel in Hv as (r & Hr & Hv). eauto.
Qed.

Lemma downsample_stays_in_range_witness :
  ∃ out, _downsample_image never_rounded (Array2 3 [[250; 255; 3]; [4; 255; 6]]%Z) 2 "box" = Ok out
       ∧ ∀ i j v, item out i j = Some v → (0 ≤ v ≤ 255)%Z.
Proof.
  apply (downsample_stays_in_range (Array2 3 [[250; 255; 3]; [4; 255; 6]]%Z) 2 "box" 0 255).
  - repeat constructor.
  - lia.
  - lia.
  - reflexivity.
  - intros r x Hr Hx. cbn [rows] in Hr.
    repeat (apply elem_of_cons in Hr as [->|Hr];
            [repeat (apply elem_of_cons in Hx as [->|Hx]; [lia|]);
             by apply elem_of_nil in Hx|]).
    by apply elem_of_nil in Hr.
Defined.

(** ** The tile generator on whole stacks *)

Lemma length_bind_Forall {A B} (k : A → list B) (l : list A) n :
  Forall (λ x, length (k x) = n) l → length (l ≫= k) = length l * n.
Proof.
  induction 1 as [|x l Hx _ IH]; [done|].
  rewrite bind_cons, length_app, Hx, IH. simpl. lia.
Qed.

Lemma gen_for_app {A B} (xs ys : list A) (body : A → gen B) :
  gen_for (xs ++ ys) body
  = match gen_for xs body with
    | (a, None) => let '(b, e) := gen_for ys body in (a ++ b, e)
    | (a, Some e) => (a, Some e)
    end.
Proof.
  induction xs as [|x xs IH]; simpl.
  - by destruct (gen_for ys body).
  - destruct (body x) as [t [e|]]; [done|]. rewrite IH.
    destruct (gen_for xs body) as [a [e|]]; [done|].
    destruct (gen_for ys body) as [b e]. by rewrite app_assoc.
Qed.

Lemma tiles_generator_length {rounded : list Z → Z} (img_stack : dask_array) (tile_height tile_width : Z)
    (factor : Z) (method : string) :
  stack_ok img_stack → (1 ≤ tile_height)%Z → (1 ≤ tile_width)%Z → (1 ≤ factor)%Z →
  ∃ tiles,
    _tiles_generator rounded img_stack (tile_height, tile_width) factor method = (tiles, None)
    ∧ length tiles
      = num_channels img_stack
        * (ceil_div (ceil_div (image_height img_stack) (Z.to_nat factor)) (Z.to_nat tile_height)
           * ceil_div (ceil_div (image_width img_stack) (Z.to_nat factor)) (Z.to_nat tile_width)).
Proof.
  intros Hok Hh Hw Hf. unfold _tiles_generator.
  rewrite gen_for_normal.
  2:{ intros image. destruct (downsample_ok (rounded := rounded) image factor method Hf) as [out ->].
      by apply image_tiles_ends. }
  eexists. split; [done|]. unfold num_channels.
  apply length_bind_Forall. unfold stack_ok in Hok.
  eapply Forall_impl; [exact Hok|]. intros image [Hrect Hshape]. simpl.
  destruct (downsample_image_shape (rounded := rounded) image factor method Hrect Hf)
    as (out & -> & Hs & _).
  rewrite image_tiles_scan by done. cbn [fst].
  rewrite length_fmap, scan_positions_length.
  unfold shape in *. apply pair_equal_spec in Hs as [-> ->].
  apply pair_equal_spec in Hshape as [-> ->]. done.
Qed.

(** The generator yields exactly the tiles the declared shape of a level
    calls for: on a well-formed stack, with positive tile sizes and a factor
    >= 1, it ends without raising after
    channels * ceil(h/th) * ceil(w/tw) tiles, where (h, w) =
    (ceil(H/factor), ceil(W/factor)) is the shape of the downsampled planes. *)
Theorem tiles_generator_count {rounded : list Z → Z} (img_stack : dask_array) (tile_height tile_width : Z)
    (factor : Z) (method : string) :
  stack_ok img_stack → (1 ≤ tile_height)%Z → (1 ≤ tile_width)%Z → (1 ≤ factor)%Z →
  ∃ tiles,
    _tiles_generator rounded img_stack (tile_height, tile_width) factor method = (tiles, None)
    ∧ length tiles
      = num_channels img_stack
        * (ceil_div (ceil_div (image_height img_stack) (Z.to_nat factor)) (Z.to_nat tile_height)
           * ceil_div (ceil_div (image_width img_stack) (Z.to_nat factor)) (Z.to_nat tile_width)).
Proof. apply tiles_generator_length. Qed.

Lemma tiles_generator_count_witness :
  ∃ tiles,
    _tiles_generator never_rounded (Stack 1 1 [Array2 1 [[1%Z]]; Array2 1 [[2%Z]]; Array2 1 [[3%Z]]])
      (16, 16)%Z 2 "box" = (tiles, None)
    ∧ length tiles
      = 3 * (ceil_div (ceil_div 1 (Z.to_nat 2)) (Z.to_nat 16)
             * ceil_div (ceil_div 1 (Z.to_nat 2)) (Z.to_nat 16)).
Proof.
  apply (tiles_generator_count
           (Stack 1 1 [Array2 1 [[1%Z]]; Array2 1 [[2%Z]]; Array2 1 [[3%Z]]]) 16 16 2 "box").
  - repeat constructor.
  - lia.
  - lia.
  - lia.
Defined.

(** Tiles come channel by channel: the tiles of a stack are the tiles of its
    first channels followed by the tiles of the remaining ones, and when a
    channel raises, the tiles yielded so far stand and no later channel is
    read. *)
Theorem tiles_generator_channel_major {rounded : list Z → Z} (h w : nat) (first rest : list (ndarray Z))
    (tile_sizes : Z * Z) (factor : Z) (method : string) :
  _tiles_generator rounded (Stack h w (first ++ rest)) tile_sizes factor method
  = match _tiles_generator rounded (Stack h w first) tile_sizes factor method with
    | (tiles, None) =>
        let '(more, e) := _tiles_generator rounded (Stack h w rest) tile_sizes factor method in
        (tiles ++ more, e)
    | (tiles, Some e) => (tiles, Some e)
    end.
Proof.
  unfold _tiles_generator. destruct tile_sizes as [th tw]. cbn [planes].
  apply gen_for_app.
Qed.

(** A zero tile height is refused by the first [range] the generator builds:
    on a stack with at least one channel, and a factor >= 1, the generator
    raises ValueError before it yields any tile. *)
Theorem tiles_generator_zero_tile {rounded : list Z → Z} (h w : nat) (image : ndarray Z) (rest : list (ndarray Z))
    (tile_width factor : Z) (method : string) :
  (1 ≤ factor)%Z →
  _tiles_generator rounded (Stack h w (image :: rest)) (0, tile_width)%Z factor method
  = ([], Some (ValueError "range() arg 3 must not be zero")).
Proof.
  intros Hf. unfold _tiles_generator. cbn [planes gen_for].
  destruct (downsample_ok (rounded := rounded) image factor method Hf) as [out ->].
  done.
Qed.

Lemma tiles_generator_zero_tile_witness :
  _tiles_generator never_rounded (Stack 2 2 [Array2 2 [[1; 2]; [3; 4]]%Z]) (0, 0)%Z 4 "box"
  = ([], Some (ValueError "range() arg 3 must not be zero")).
Proof.
  apply (tiles_generator_zero_tile 2 2 (Array2 2 [[1; 2]; [3; 4]]%Z) [] 0 4 "box"). lia.
Defined.

(** A negative tile height is not refused: every [range] over the rows is
    empty, so for a factor >= 1 the generator ends normally without having
    yielded a single tile, whatever the stack holds. *)
Theorem tiles_generator_negative_tile {rounded : list Z → Z} (img_stack : dask_array) (tile_height tile_width : Z)
    (factor : Z) (method : string) :
  (tile_height < 0)%Z → (1 ≤ factor)%Z →
  _tiles_generator rounded img_stack (tile_height, tile_width) factor method = ([], None).
Proof.
  intros Hh Hf. unfold _tiles_generator.
  rewrite gen_for_normal.
  - f_equal. induction (planes img_stack) as [|image l IH]; [done|].
    rewrite bind_cons, IH, app_nil_r.
    destruct (downsample_ok (rounded := rounded) image factor method Hf) as [out ->].
    unfold image_tiles, gen_for_range, py_range0.
    destruct (Z.eqb_spec tile_height 0); [lia|].
    destruct (Z.ltb_spec tile_height 0); [done|lia].
  - intros image. destruct (downsample_ok (rounded := rounded) image factor method Hf) as [out ->].
    unfold image_tiles, gen_for_range, py_range0.
    destruct (Z.eqb_spec tile_height 0); [lia|].
    destruct (Z.ltb_spec tile_height 0); [done|lia].
Qed.

Lemma tiles_generator_negative_tile_witness :
  _tiles_generator never_rounded (Stack 2 2 [Array2 2 [[1; 2]; [3; 4]]%Z]) (-16, -16)%Z 1 "box" = ([], None).
Proof.
  apply (tiles_generator_negative_tile (Stack 2 2 [Array2 2 [[1; 2]; [3; 4]]%Z])
           (-16) (-16) 1 "box").
  - lia.
  - lia.
Defined.

(** Looking up position [n] in the concatenation of blocks of one length
    [b]: block [n / b], position [n mod b]. *)
Lemma lookup_bind_const {A B} (k : A → list B) (l : list A) (b n : nat) :
  1 ≤ b → (∀ x, length (k x) = b) →
  (l ≫= k) !! n = l !! (n / b) ≫= λ x, k x !! (n mod b).
Proof.
  intros Hb Hk. revert n. induction l as [|x l IH]; intros n; [done|].
  rewrite bind_cons. destruct (decide (n < b)) as [Hlt|Hge].
  - rewrite lookup_app_l by (by rewrite Hk).
    rewrite Nat.div_small, Nat.mod_small by done. done.
  - rewrite lookup_app_r by (rewrite Hk; lia). rewrite Hk, IH.
    assert (n / b = S ((n - b) / b)) as ->.
    { replace n with (n - b + 1 * b) at 1 by lia. rewrite Nat.div_add by lia. lia. }
    assert (n mod b = (n - b) mod b) as ->.
    { replace n with (n - b + 1 * b) at 1 by lia. by rewrite Nat.Div0.mod_add. }
    done.
Qed.

(** The corner the tile loops visit at step [n]. *)
Lemma scan_positions_lookup h w th tw n :
  n < ceil_div h th * ceil_div w tw →
  scan_positions h w th tw !! n
  = Some (n / ceil_div w tw * th, n mod ceil_div w tw * tw).
Proof.
  intros Hn. unfold scan_positions.
  assert (1 ≤ ceil_div w tw) as Hb by nia.
  rewrite (lookup_bind_const _ _ (ceil_div w tw)); [|done|].
  2:{ intros i. rewrite (length_bind_const _ _ 1), length_seq; [lia|done]. }
  rewrite lookup_seq_lt.
  2:{ apply Nat.Div0.div_lt_upper_bound. lia. }
  cbn [mbind option_bind Nat.add].
  rewrite (lookup_bind_const _ _ 1); [|done..].
  rewrite Nat.div_1_r, lookup_seq_lt by (apply Nat.mod_upper_bound; lia).
  cbn [mbind option_bind Nat.add]. by rewrite Nat.mod_1_r.
Qed.

(** Every pixel of a plane lies in exactly one tile of the tile loops.  With
    A = ceil(W/tw) tiles across, the n-th tile the loops yield is the block
    of the plane whose corner is (n div A * th, n mod A * tw); pixel (i, j)
    lies within the block of exactly one n, namely (i div th) * A + j div tw,
    and that tile holds the pixel at (i mod th, j mod tw). *)
Theorem pixel_in_exactly_one_tile (image : ndarray Z) (tile_height tile_width : Z)
    (i j : nat) :
  rectangular image → (1 ≤ tile_height)%Z → (1 ≤ tile_width)%Z →
  i < nrows image → j < ncols image →
  let th := Z.to_nat tile_height in
  let tw := Z.to_nat tile_width in
  let across := ceil_div (ncols image) tw in
  ∃ tiles,
    image_tiles image tile_height tile_width = (tiles, None)
    ∧ (∀ rounded method,
         _tiles_generator rounded (Stack (nrows image) (ncols image) [image])
           (tile_height, tile_width) 1 method = (tiles, None))
    ∧ (∀ n, n < length tiles →
         tiles !! n = Some (slice2 image (n / across * th) (n / across * th + th)
                                         (n mod across * tw) (n mod across * tw + tw)))
    ∧ (∃ tile, tiles !! (i / th * across + j / tw) = Some tile
             ∧ item tile (i mod th) (j mod tw) = item image i j)
    ∧ (∀ n, n < length tiles →
         n / across * th ≤ i < n / across * th + th →
         n mod across * tw ≤ j < n mod across * tw + tw →
         n = i / th * across + j / tw).
Proof.
  intros Hrect Hh Hw Hi Hj th tw across.
  assert (1 ≤ th) as Hth by lia. assert (1 ≤ tw) as Htw by lia.
  pose proof (Nat.div_mod_eq i th) as Ei.
  pose proof (Nat.mod_upper_bound i th ltac:(lia)) as Bi.
  pose proof (Nat.div_mod_eq j tw) as Ej.
  pose proof (Nat.mod_upper_bound j tw ltac:(lia)) as Bj.
  assert (j / tw < across) as Hacross by (apply ceil_div_lt; [done|nia]).
  assert (i / th < ceil_div (nrows image) th) as Hdown by (apply ceil_div_lt; [done|nia]).
  eexists. split; [by apply image_tiles_scan|]. fold th tw.
  split.
  { intros rounded method. unfold _tiles_generator.
    cbn [planes gen_for _downsample_image Z.eqb Pos.eqb].
    rewrite image_tiles_scan by done. fold th tw. by rewrite app_nil_r. }
  assert (∀ n, n < ceil_div (nrows image) th * across →
            ((λ p, slice2 image p.1 (p.1 + th) p.2 (p.2 + tw))
               <$> scan_positions (nrows image) (ncols image) th tw) !! n
            = Some (slice2 image (n / across * th) (n / across * th + th)
                                 (n mod across * tw) (n mod across * tw + tw))) as Hlook.
  { intros n Hn. rewrite list_lookup_fmap, scan_positions_lookup by done. done. }
  rewrite length_fmap, scan_positions_length. fold across.
  split; [done|]. split.
  - assert (i / th * across + j / tw < ceil_div (nrows image) th * across) as Hn0 by nia.
    eexists. split; [by apply Hlook|].
    assert ((i / th * across + j / tw) / across = i / th) as ->
      by (symmetry; apply (Nat.div_unique _ across _ (j / tw)); lia).
    assert ((i / th * across + j / tw) mod across = j / tw) as ->
      by (symmetry; apply (Nat.mod_unique _ across (i / th)); lia).
    unfold item. rewrite slice2_row. rewrite decide_True by lia.
    replace (i / th * th + i mod th) with i by lia.
    destruct (lookup_lt_is_Some_2 (rows image) i Hi) as [r Hr].
    rewrite Hr. cbn -[slice].
    unfold slice. rewrite lookup_take_lt, lookup_drop by lia. f_equal. lia.
  - intros n Hn Hy Hx.
    pose proof (Nat.div_mod_eq n across) as En.
    assert (n / across = i / th) as <-
      by (apply (Nat.div_unique i th _ (i - n / across * th)); lia).
    assert (n mod across = j / tw) as <-
      by (apply (Nat.div_unique j tw _ (j - n mod across * tw)); lia).
    lia.
Qed.

Lemma pixel_in_exactly_one_tile_witness :
  let image := Array2 3 [[1; 2; 3]; [4; 5; 6]; [7; 8; 9]]%Z in
  ∃ tiles,
    image_tiles image 2 2 = (tiles, None)
    ∧ (∀ rounded method,
         _tiles_generator rounded (Stack 3 3 [image]) (2, 2)%Z 1 method = (tiles, None))
    ∧ (∀ n, n < length tiles →
         tiles !! n = Some (slice2 image (n / 2 * 2) (n / 2 * 2 + 2)
                                         (n mod 2 * 2) (n mod 2 * 2 + 2)))
    ∧ (∃ tile, tiles !! (2 / 2 * 2 + 1 / 2) = Some tile
             ∧ item tile (2 mod 2) (1 mod 2) = item image 2 1)
    ∧ (∀ n, n < length tiles →
         n / 2 * 2 ≤ 2 < n / 2 * 2 + 2 → n mod 2 * 2 ≤ 1 < n mod 2 * 2 + 2 →
         n = 2 / 2 * 2 + 1 / 2).
Proof.
  apply (pixel_in_exactly_one_tile (Array2 3 [[1; 2; 3]; [4; 5; 6]; [7; 8; 9]]%Z) 2 2 2 1).
  - repeat constructor.
  - lia.
  - lia.
  - unfold nrows. simpl. lia.
  - simpl. lia.
Defined.

(** ** The writer, continued *)

Lemma to_nat_pow2 (level : nat) : Z.to_nat (2 ^ Z.of_nat level) = 2 ^ level.
Proof.
  rewrite <- (Nat2Z.id (2 ^ level)). f_equal. by rewrite Nat2Z.inj_pow.
Qed.

Lemma pow2_pos_Z (level : nat) : (1 ≤ 2 ^ Z.of_nat level)%Z.
Proof. pose proof (Z.pow_pos_nonneg 2 (Z.of_nat level)). lia. Qed.

(** Each pyramid level is half the previous one, rounded up, and does not
    vanish, as long as the float quotient behind the declared shape is exact:
    for a stack of at least one row and one column whose sides are below
    2^53, and levels up to 1074, the shape declared for level 1 is half the
    full-resolution shape, the shape declared for level k + 1 is half the
    shape declared for level k, every declared side is at least 1, and once
    2^k reaches a side of the full image that side stays at exactly 1
    pixel. *)
Theorem pyramid_levels_halve {rounded : list Z → Z} (img_stack : dask_array) (o : options)
    (n : Z) (method : string) (level : nat) :
  1 ≤ image_height img_stack → 1 ≤ image_width img_stack →
  (Z.of_nat (image_height img_stack) < 2 ^ 53)%Z →
  (Z.of_nat (image_width img_stack) < 2 ^ 53)%Z →
  S level ≤ 1074 →
  ∃ h w, shape4 (level_args rounded img_stack o method level) = (num_channels img_stack, h, w, 1)
       ∧ shape4 (level_args rounded img_stack o method (S level))
         = (num_channels img_stack, ceil_div h 2, ceil_div w 2, 1)
       ∧ shape4 (level_args rounded img_stack o method 1)
         = (num_channels img_stack,
            ceil_div (shape4 (level0_args rounded img_stack o n method)).1.1.2 2,
            ceil_div (shape4 (level0_args rounded img_stack o n method)).1.2 2, 1)
       ∧ 1 ≤ h ≤ image_height img_stack ∧ 1 ≤ w ≤ image_width img_stack
       ∧ (image_height img_stack ≤ 2 ^ level → h = 1)
       ∧ (image_width img_stack ≤ 2 ^ level → w = 1).
Proof.
  intros Hh Hw Hhb Hwb Hl. pose proof (pow2_pos level) as Hp.
  do 2 eexists. split; [done|]. cbn [level_args shape4 level0_args fst snd].
  rewrite !ceil_truediv_pow2_exact by (done || lia).
  split; [|split].
  - rewrite !ceil_div_ceil_div by lia.
    by replace (2 ^ S level) with (2 ^ level * 2) by (simpl; lia).
  - done.
  - destruct (ceil_div_bounds (image_height img_stack) (2 ^ level) Hp).
    destruct (ceil_div_bounds (image_width img_stack) (2 ^ level) Hp).
    repeat split; try nia; intros ?; apply ceil_div_unique; lia.
Qed.

Lemma pyramid_levels_halve_witness :
  ∃ h w, shape4 (level_args never_rounded plane_2050 (writer_options 1024 None creator_only) "box" 11)
         = (num_channels plane_2050, h, w, 1)
       ∧ shape4 (level_args never_rounded plane_2050 (writer_options 1024 None creator_only) "box" 12)
         = (num_channels plane_2050, ceil_div h 2, ceil_div w 2, 1)
       ∧ shape4 (level_args never_rounded plane_2050 (writer_options 1024 None creator_only) "box" 1)
         = (num_channels plane_2050,
            ceil_div (shape4 (level0_args never_rounded plane_2050
                                (writer_options 1024 None creator_only) 13 "box")).1.1.2 2,
            ceil_div (shape4 (level0_args never_rounded plane_2050
                                (writer_options 1024 None creator_only) 13 "box")).1.2 2, 1)
       ∧ 1 ≤ h ≤ image_height plane_2050 ∧ 1 ≤ w ≤ image_width plane_2050
       ∧ (image_height plane_2050 ≤ 2 ^ 11 → h = 1)
       ∧ (image_width plane_2050 ≤ 2 ^ 11 → w = 1).
Proof.
  apply (pyramid_levels_halve plane_2050 (writer_options 1024 None creator_only) 13 "box" 11).
  - simpl. lia.
  - simpl. lia.
  - reflexivity.
  - reflexivity.
  - lia.
Defined.

Lemma untouched_refl file w : untouched_elsewhere file w w.
Proof. split; [done|set_solver]. Qed.

Lemma untouched_trans file w1 w2 w3 :
  untouched_elsewhere file w1 w2 → untouched_elsewhere file w2 w3 →
  untouched_elsewhere file w1 w3.
Proof.
  intros [F1 D1] [F2 D2]. split; [|set_solver].
  intros other Hne. by rewrite F2, F1.
Qed.

Lemma io_bind_untouched {A B} file (m : io A) (k : A → io B) :
  (∀ w, untouched_elsewhere file w (m w).2) →
  (∀ a w, untouched_elsewhere file w (k a w).2) →
  ∀ w, untouched_elsewhere file w (io_bind m k w).2.
Proof.
  intros Hm Hk w. unfold io_bind. specialize (Hm w).
  destruct (m w) as [[a|e] w1]; simpl in *; [|done].
  eapply untouched_trans; [exact Hm|apply Hk].
Qed.

Lemma write_untouched {mismatched : write_args → list (ndarray Z) → res unit} file args w : untouched_elsewhere file w (write mismatched file args w).2.
Proof.
  unfold write. destruct (tile_ok (tile args)); [|apply untouched_refl].
  destruct (data args ()) as [tiles e]. simpl. split; [|done]. simpl.
  intros other Hne. by rewrite lookup_alter_ne.
Qed.

Lemma io_for_untouched {A} file (xs : list A) (body : A → io unit) :
  (∀ x w, untouched_elsewhere file w (body x w).2) →
  ∀ w, untouched_elsewhere file w (io_for xs body w).2.
Proof.
  intros Hbody. induction xs as [|x xs IH]; intros w; simpl.
  - apply untouched_refl.
  - apply io_bind_untouched; [apply Hbody|]. intros _. apply IH.
Qed.

Section WriterFurther.

Context {float : Type} (str : float → string).

(** The writer keeps to its destination: whatever the arguments, and whether
    the run succeeds or fails on the way, every file other than the
    destination is left as it was and no directory disappears. *)
Theorem writer_touches_only_destination {rounded : list Z → Z} {mismatched : write_args → list (ndarray Z) → res unit} (img_stack : dask_array) (file : path)
    (channel_names : option (list string)) (pixel_size_um : option (float * float))
    (compression : option string) (tile_size max_levels : Z) (method : string)
    (w : world) :
  untouched_elsewhere file w
    (write_pyramidal_ome_tiff rounded mismatched str img_stack file channel_names pixel_size_um
       compression tile_size max_levels method w).2.
Proof.
  unfold write_pyramidal_ome_tiff.
  apply io_bind_untouched; [intros w0; apply untouched_refl|]. intros m.
  apply io_bind_untouched.
  { intros w0. split; [done|]. simpl. set_solver. }
  intros _. apply io_bind_untouched.
  { intros w0. split; [|done]. simpl. intros other Hne. by rewrite lookup_insert_ne. }
  intros _. apply io_bind_untouched; [apply write_untouched|].
  intros _. apply io_for_untouched. intros level. apply write_untouched.
Qed.

(** A tile size that is not a positive multiple of 16 is found out late: when
    the metadata can be built, the run creates the directory, opens the
    destination and writes its header, then fails in the first image write
    with a ValueError, leaving a destination that holds the header and no
    image. *)
Theorem writer_bad_tile_size {rounded : list Z → Z} {mismatched : write_args → list (ndarray Z) → res unit} (img_stack : dask_array) (file : path)
    (channel_names : option (list string)) (pixel_size_um : option (float * float))
    (compression : option string) (tile_size max_levels : Z) (method : string)
    (ome_metadata : gmap string ome_value) (w : world) :
  ¬ ((1 ≤ tile_size)%Z ∧ (tile_size mod 16 = 0)%Z) →
  _make_ome_metadata str img_stack channel_names pixel_size_um = Ok ome_metadata →
  ∃ msg w', write_pyramidal_ome_tiff rounded mismatched str img_stack file channel_names pixel_size_um
              compression tile_size max_levels method w = (Raise (ValueError msg), w')
          ∧ files w' !! file = Some {| header := bigtiff_header; pages := [] |}
          ∧ (removelast file ≠ [] → removelast file ∈ dirs w').
Proof.
  intros Hbad Hmeta. unfold write_pyramidal_ome_tiff, io_bind, io_lift.
  rewrite Hmeta. cbn [mkdir_parents TiffWriter].
  assert (tile_ok (tile_size, tile_size) = false) as Hno.
  { unfold tile_ok. simpl. destruct (Z.eqb_spec (tile_size mod 16) 0); [|done].
    destruct (Z.leb_spec 1 tile_size); [|done]. exfalso. apply Hbad. lia. }
  unfold write at 1. cbn [tile level0_args opt_tile]. rewrite Hno.
  unfold io_raise. do 2 eexists. split; [done|]. cbn [files dirs]. split.
  - apply lookup_insert_eq.
  - intros Hnil. apply elem_of_union_r, elem_of_list_to_set, list_elem_of_fmap.
    exists (length (removelast file)). split; [by rewrite firstn_all|].
    apply elem_of_seq. destruct (removelast file); [done|simpl; lia].
Qed.

End WriterFurther.

Lemma writer_bad_tile_size_witness :
  ∃ msg w', write_pyramidal_ome_tiff never_rounded never_mismatched (λ s : string, s) one_channel ["out"; "image.tif"]
              None None None 100 3 "box" empty_world = (Raise (ValueError msg), w')
          ∧ files w' !! ["out"; "image.tif"]
            = Some {| header := bigtiff_header; pages := [] |}
          ∧ (removelast ["out"; "image.tif"] ≠ [] → removelast ["out"; "image.tif"] ∈ dirs w').
Proof.
  apply (writer_bad_tile_size (λ s : string, s) one_channel ["out"; "image.tif"]
           None None None 100 3 "box" creator_only empty_world).
  - intros [_ H]. vm_compute in H. discriminate.
  - reflexivity.
Defined.

Section WriterRuns.

Context {float : Type} (str : float → string).

(** A list of channel names of the wrong length stops the writer before it
    touches anything: whatever the tile size, the level count and the state
    of the file system, a non-empty list whose length differs from the
    channel count makes the run raise AssertionError and leaves the file
    system exactly as it was. *)
Theorem writer_channel_mismatch_fails_first {rounded : list Z → Z} {mismatched : write_args → list (ndarray Z) → res unit} (img_stack : dask_array) (file : path)
    (channel_names : list string) (pixel_size_um : option (float * float))
    (compression : option string) (tile_size max_levels : Z) (method : string)
    (w : world) :
  channel_names ≠ [] → length channel_names ≠ num_channels img_stack →
  write_pyramidal_ome_tiff rounded mismatched str img_stack file (Some channel_names) pixel_size_um
    compression tile_size max_levels method w = (Raise AssertionError, w).
Proof.
  intros Hne Hlen. unfold write_pyramidal_ome_tiff, io_bind, io_lift, _make_ome_metadata.
  destruct channel_names as [|name names]; [done|].
  by rewrite decide_False.
Qed.

(** The first call draws exactly the tiles its declared shape is made of. *)
Lemma level0_args_tiles {rounded : list Z → Z} (img_stack : dask_array) (tile_size : Z)
    (compression : option string) (ome_metadata : gmap string ome_value)
    (n : Z) (method : string) :
  stack_ok img_stack → (1 ≤ tile_size)%Z →
  let c := level0_args rounded img_stack
             (writer_options tile_size compression ome_metadata) n method in
  (data c ()).2 = None ∧ length (data c ()).1 = tiles_needed c.
Proof.
  intros Hok Hpos c. subst c. unfold tiles_needed.
  cbn [level0_args data shape4 tile writer_options opt_tile fst snd].
  destruct (tiles_generator_length (rounded := rounded) img_stack tile_size tile_size 1
              method) as (tiles & E & L); [done|lia..|].
  rewrite E. cbn [fst snd]. split; [done|]. rewrite L.
  change (Z.to_nat 1) with 1. by rewrite !ceil_div_1.
Qed.

(** So does the call of a level up to 1074 on a stack with sides below
    2^53, where the declared shape is the shape of the downsampled planes. *)
Lemma level_args_tiles {rounded : list Z → Z} (img_stack : dask_array) (tile_size : Z)
    (compression : option string) (ome_metadata : gmap string ome_value)
    (method : string) (level : nat) :
  stack_ok img_stack → (1 ≤ tile_size)%Z →
  (Z.of_nat (image_height img_stack) < 2 ^ 53)%Z →
  (Z.of_nat (image_width img_stack) < 2 ^ 53)%Z → level ≤ 1074 →
  let c := level_args rounded img_stack
             (writer_options tile_size compression ome_metadata) method level in
  (data c ()).2 = None ∧ length (data c ()).1 = tiles_needed c.
Proof.
  intros Hok Hpos Hh Hw Hl c. subst c. unfold tiles_needed.
  cbn [level_args data shape4 tile writer_options opt_tile fst snd].
  destruct (tiles_generator_length (rounded := rounded) img_stack tile_size tile_size
              (2 ^ Z.of_nat level) method) as (tiles & E & L);
    [done|lia|lia|apply pow2_pos_Z|].
  rewrite E. cbn [fst snd]. split; [done|].
  rewrite L, to_nat_pow2. by rewrite !ceil_truediv_pow2_exact.
Qed.

(** Up to and including the first image write: what is left of a run is
    the loop over the levels, on a destination that holds the full
    resolution image. *)
Lemma writer_first_write {rounded : list Z → Z}
    {mismatched : write_args → list (ndarray Z) → res unit}
    (img_stack : dask_array) (file : path)
    (channel_names : option (list string)) (pixel_size_um : option (float * float))
    (compression : option string) (tile_size level_count : Z) (method : string)
    (ome_metadata : gmap string ome_value) (w : world) :
  stack_ok img_stack →
  _make_ome_metadata str img_stack channel_names pixel_size_um = Ok ome_metadata →
  tile_ok (tile_size, tile_size) = true →
  let o := writer_options tile_size compression ome_metadata in
  ∃ w3, write_pyramidal_ome_tiff rounded mismatched str img_stack file channel_names
          pixel_size_um compression tile_size level_count method w
        = io_for (py_range1 level_count)
            (λ level, write mismatched file (level_args rounded img_stack o method level))
            w3
      ∧ files w3 !! file
        = Some {| header := bigtiff_header_linked;
                  pages := [drained (level0_args rounded img_stack o level_count method)] |}.
Proof.
  intros Hok Hmeta Htile o.
  pose proof (tile_ok_positive _ Htile) as Hpos.
  unfold write_pyramidal_ome_tiff. rewrite Hmeta.
  unfold io_bind at 1. unfold io_lift.
  unfold io_bind at 1. unfold mkdir_parents at 1.
  unfold io_bind at 1. unfold TiffWriter at 1.
  change {| opt_tile := (tile_size, tile_size); opt_photometric := "minisblack";
            opt_compression := compression; opt_metadata := ome_metadata;
            opt_software := _creator |} with o.
  set (w2 := {| dirs := _; files := <[file := _]> _ |}).
  assert (files w2 !! file = Some {| header := bigtiff_header; pages := [] |}) as F2
    by (unfold w2; simpl; apply lookup_insert_eq).
  destruct (level0_args_tiles (rounded := rounded) img_stack tile_size compression
              ome_metadata level_count method Hok Hpos) as [Hd0 Hn0].
  destruct (write_appends (mismatched := mismatched) file
              (level0_args rounded img_stack o level_count method) w2
              {| header := bigtiff_header; pages := [] |}) as (w3 & E3 & F3);
    [done..|].
  unfold io_bind. rewrite E3. by exists w3.
Qed.

Lemma writer_run {rounded : list Z → Z}
    {mismatched : write_args → list (ndarray Z) → res unit}
    (img_stack : dask_array) (file : path)
    (channel_names : option (list string)) (pixel_size_um : option (float * float))
    (compression : option string) (tile_size level_count : Z) (method : string)
    (ome_metadata : gmap string ome_value) (w : world) :
  stack_ok img_stack →
  (Z.of_nat (image_height img_stack) < 2 ^ 53)%Z →
  (Z.of_nat (image_width img_stack) < 2 ^ 53)%Z →
  (1 ≤ level_count ≤ 1075)%Z →
  _make_ome_metadata str img_stack channel_names pixel_size_um = Ok ome_metadata →
  tile_ok (tile_size, tile_size) = true →
  ∃ w', write_pyramidal_ome_tiff rounded mismatched str img_stack file channel_names
          pixel_size_um compression tile_size level_count method w = (Ok tt, w')
      ∧ files w' !! file
        = Some {| header := bigtiff_header_linked;
                  pages := drained <$> write_calls rounded img_stack
                             (writer_options tile_size compression ome_metadata)
                             level_count method |}.
Proof.
  intros Hok Hh Hw Hn Hmeta Htile.
  pose proof (tile_ok_positive _ Htile) as Hpos.
  destruct (writer_first_write (rounded := rounded) (mismatched := mismatched)
              img_stack file channel_names pixel_size_um compression tile_size
              level_count method ome_metadata w Hok Hmeta Htile) as (w3 & -> & F3).
  set (o := writer_options tile_size compression ome_metadata) in *.
  destruct (io_for_write_appends (mismatched := mismatched) file
              (level_args rounded img_stack o method) (py_range1 level_count) w3
              {| header := bigtiff_header_linked;
                 pages := [drained (level0_args rounded img_stack o level_count method)] |})
    as (w4 & E4 & F4); [|reflexivity|exact F3|].
  { intros level Hlevel. unfold py_range1 in Hlevel. apply elem_of_seq in Hlevel.
    split; [done|].
    apply (level_args_tiles (rounded := rounded) img_stack tile_size compression
             ome_metadata method level); [done..|lia]. }
  exists w4. split; [done|]. rewrite F4. done.
Qed.

(** What a successful run leaves behind is consistent: on a well-formed
    stack with sides below 2^53, with a tile size the container accepts and
    1 <= level_count <= 1075 (the range in which the declared shapes are
    computed exactly), the destination holds level_count images; every image
    received exactly channels * ceil(h/tile) * ceil(w/tile) tiles for the
    shape (channels, h, w, 1) it declares; and all images carry the same
    tile shape, photometric tag "minisblack", compression, metadata and the
    software tag "zarr-ometiff". *)
Theorem written_images_consistent {rounded : list Z → Z}
    {mismatched : write_args → list (ndarray Z) → res unit}
    (img_stack : dask_array) (file : path)
    (channel_names : option (list string)) (pixel_size_um : option (float * float))
    (compression : option string) (tile_size level_count : Z) (method : string)
    (ome_metadata : gmap string ome_value) (w : world) :
  stack_ok img_stack →
  (Z.of_nat (image_height img_stack) < 2 ^ 53)%Z →
  (Z.of_nat (image_width img_stack) < 2 ^ 53)%Z →
  (1 ≤ level_count ≤ 1075)%Z →
  _make_ome_metadata str img_stack channel_names pixel_size_um = Ok ome_metadata →
  tile_ok (tile_size, tile_size) = true →
  ∃ w' f, write_pyramidal_ome_tiff rounded mismatched str img_stack file channel_names
            pixel_size_um compression tile_size level_count method w = (Ok tt, w')
        ∧ files w' !! file = Some f
        ∧ header f = bigtiff_header_linked
        ∧ length (pages f) = Z.to_nat level_count
        ∧ ∀ pg, pg ∈ pages f →
            length (page_tiles pg)
            = (shape4 (page_args pg)).1.1.1
              * (ceil_div (shape4 (page_args pg)).1.1.2 (Z.to_nat tile_size)
                 * ceil_div (shape4 (page_args pg)).1.2 (Z.to_nat tile_size))
            ∧ tile (page_args pg) = (tile_size, tile_size)
            ∧ photometric (page_args pg) = "minisblack"
            ∧ Tifffile.compression (page_args pg) = compression
            ∧ metadata (page_args pg) = ome_metadata
            ∧ software (page_args pg) = "zarr-ometiff".
Proof.
  intros Hok Hh Hw Hn Hmeta Htile.
  destruct (writer_run (rounded := rounded) (mismatched := mismatched) img_stack file
              channel_names pixel_size_um compression
              tile_size level_count method ome_metadata w Hok Hh Hw Hn Hmeta Htile)
    as (w' & Hrun & Hfile).
  pose proof (tile_ok_positive _ Htile) as Hpos.
  do 2 eexists. split; [exact Hrun|]. split; [exact Hfile|]. cbn [pages header].
  split; [done|]. split.
  - unfold write_calls. rewrite length_fmap. simpl.
    rewrite length_fmap. unfold py_range1. rewrite length_seq. lia.
  - intros pg Hpg. apply list_elem_of_fmap in Hpg as (c & -> & Hc).
    unfold write_calls in Hc. apply elem_of_cons in Hc as [->|Hc].
    + split; [|done].
      destruct (level0_args_tiles (rounded := rounded) img_stack tile_size compression
                  ome_metadata level_count method Hok Hpos) as [_ L].
      exact L.
    + apply list_elem_of_fmap in Hc as (level & -> & Hlevel).
      unfold py_range1 in Hlevel. apply elem_of_seq in Hlevel.
      split; [|done].
      destruct (level_args_tiles (rounded := rounded) img_stack tile_size compression
                  ome_metadata method level Hok Hpos Hh Hw) as [_ L]; [lia|].
      exact L.
Qed.

(** Within the range in which the declared shapes are computed exactly
    (sides below 2^53, 1 <= level_count <= 1075) the writer produces the
    pyramid the levels are meant to form.  It makes exactly level_count image
    writes: write k declares the shape (channels, ceil(H0/2^k), ceil(W0/2^k),
    1), the first one reserves level_count - 1 sub-resolution entries and
    every later one is flagged as a reduced-resolution image (subfiletype
    1); the planes written at level k are the planes of the stack
    downsampled by 2^k and have that shape; the tiles of write k are the
    tiles of those downsampled planes, channel after channel; and on a
    well-formed stack, with a tile size the container accepts, the run
    succeeds and leaves exactly these images, in this order, in the
    destination, whose header points at the first of them. *)
Theorem pyramid_levels_written {rounded : list Z → Z}
    {mismatched : write_args → list (ndarray Z) → res unit}
    (img_stack : dask_array) (file : path)
    (channel_names : option (list string)) (pixel_size_um : option (float * float))
    (compression : option string) (tile_size level_count : Z) (method : string)
    (ome_metadata : gmap string ome_value) :
  (1 ≤ level_count ≤ 1075)%Z →
  (Z.of_nat (image_height img_stack) < 2 ^ 53)%Z →
  (Z.of_nat (image_width img_stack) < 2 ^ 53)%Z →
  _make_ome_metadata str img_stack channel_names pixel_size_um = Ok ome_metadata →
  let calls := write_calls rounded img_stack
                 (writer_options tile_size compression ome_metadata)
                 level_count method in
  length calls = Z.to_nat level_count
  ∧ (∀ k, k < Z.to_nat level_count →
       ∃ c, calls !! k = Some c
          ∧ shape4 c = (num_channels img_stack,
                        ceil_div (image_height img_stack) (2 ^ k),
                        ceil_div (image_width img_stack) (2 ^ k), 1)
          ∧ data c () = _tiles_generator rounded img_stack (tile_size, tile_size)
                          (2 ^ Z.of_nat k) method
          ∧ (if decide (k = 0)
             then subifds c = Some (level_count - 1)%Z ∧ subfiletype c = None
             else subifds c = None ∧ subfiletype c = Some 1%Z)
          ∧ ((1 ≤ tile_size)%Z →
             page_tiles (drained c)
             = image ← planes img_stack;
               match _downsample_image rounded image (2 ^ Z.of_nat k) method with
               | Ok out => (image_tiles out tile_size tile_size).1
               | Raise _ => []
               end))
  ∧ (stack_ok img_stack → ∀ k image, image ∈ planes img_stack →
       ∃ out, _downsample_image rounded image (2 ^ Z.of_nat k) method = Ok out
            ∧ shape out = (ceil_div (image_height img_stack) (2 ^ k),
                           ceil_div (image_width img_stack) (2 ^ k)))
  ∧ (stack_ok img_stack → tile_ok (tile_size, tile_size) = true → ∀ w,
       ∃ w', write_pyramidal_ome_tiff rounded mismatched str img_stack file channel_names
               pixel_size_um compression tile_size level_count method w = (Ok tt, w')
           ∧ files w' !! file
             = Some {| header := bigtiff_header_linked; pages := drained <$> calls |}).
Proof.
  intros Hn Hh Hw Hmeta calls.
  assert (∀ k, (1 ≤ tile_size)%Z →
            (_tiles_generator rounded img_stack (tile_size, tile_size)
               (2 ^ Z.of_nat k) method).1
            = image ← planes img_stack;
              match _downsample_image rounded image (2 ^ Z.of_nat k) method with
              | Ok out => (image_tiles out tile_size tile_size).1
              | Raise _ => []
              end) as Htiles.
  { intros k Hpos. unfold _tiles_generator. rewrite gen_for_normal.
    - cbn [fst]. apply bind_ext_all. intros image.
      by destruct (_downsample_image rounded image (2 ^ Z.of_nat k) method).
    - intros image.
      destruct (downsample_ok (rounded := rounded) image (2 ^ Z.of_nat k) method
                  (pow2_pos_Z k)) as [out ->].
      by apply image_tiles_ends. }
  subst calls. unfold write_calls.
  split; [|split; [|split]].
  - simpl. rewrite length_fmap. unfold py_range1. rewrite length_seq. lia.
  - intros k Hk. destruct k as [|k].
    + eexists. split; [done|]. change (2 ^ 0) with 1.
      rewrite !ceil_div_1. repeat split; try done.
      intros Hpos. exact (Htiles 0 Hpos).
    + eexists. rewrite lookup_cons, list_lookup_fmap, py_range1_lookup by lia.
      split; [done|].
      cbn [level_args shape4 data subifds subfiletype writer_options opt_tile fst snd].
      rewrite !ceil_truediv_pow2_exact by (done || lia).
      repeat split; try done.
      intros Hpos. exact (Htiles (S k) Hpos).
  - intros Hok k image Himage.
    unfold stack_ok in Hok. rewrite Forall_forall in Hok.
    destruct (Hok image Himage) as [Hrect Hshape].
    injection Hshape as <- <-.
    destruct (downsample_image_shape (rounded := rounded) image (2 ^ Z.of_nat k) method
                Hrect (pow2_pos_Z k)) as (out & E & S & _).
    exists out. split; [done|]. by rewrite S, to_nat_pow2.
  - intros Hok Htile w.
    exact (writer_run (rounded := rounded) (mismatched := mismatched) img_stack file
             channel_names pixel_size_um compression tile_size level_count method
             ome_metadata w Hok Hh Hw Hn Hmeta Htile).
Qed.

End WriterRuns.

Lemma writer_channel_mismatch_fails_first_witness :
  write_pyramidal_ome_tiff never_rounded never_mismatched (λ s : string, s) three_channels ["out"; "image.tif"]
    (Some ["A"; "B"]) None None 1024 6 "box" empty_world = (Raise AssertionError, empty_world).
Proof.
  apply (writer_channel_mismatch_fails_first (λ s : string, s) three_channels
           ["out"; "image.tif"] ["A"; "B"] None None 1024 6 "box" empty_world).
  - discriminate.
  - discriminate.
Defined.

Lemma written_images_consistent_witness :
  ∃ w' f, write_pyramidal_ome_tiff never_rounded never_mismatched (λ s : string, s)
            one_channel ["out"; "image.tif"]
            None None None 16 3 "box" empty_world = (Ok tt, w')
        ∧ files w' !! ["out"; "image.tif"] = Some f
        ∧ header f = bigtiff_header_linked
        ∧ length (pages f) = Z.to_nat 3
        ∧ ∀ pg, pg ∈ pages f →
            length (page_tiles pg)
            = (shape4 (page_args pg)).1.1.1
              * (ceil_div (shape4 (page_args pg)).1.1.2 (Z.to_nat 16)
                 * ceil_div (shape4 (page_args pg)).1.2 (Z.to_nat 16))
            ∧ tile (page_args pg) = (16, 16)%Z
            ∧ photometric (page_args pg) = "minisblack"
            ∧ Tifffile.compression (page_args pg) = None
            ∧ metadata (page_args pg) = creator_only
            ∧ software (page_args pg) = "zarr-ometiff".
Proof.
  apply (written_images_consistent (λ s : string, s) one_channel ["out"; "image.tif"]
           None None None 16 3 "box" creator_only empty_world).
  - repeat constructor.
  - reflexivity.
  - reflexivity.
  - lia.
  - reflexivity.
  - reflexivity.
Defined.

Lemma pyramid_levels_written_witness :
  let calls := write_calls never_rounded plane_2050
                 (writer_options 1024 None creator_only) 3 "box" in
  length calls = Z.to_nat 3
  ∧ (∀ k, k < Z.to_nat 3 →
       ∃ c, calls !! k = Some c
          ∧ shape4 c = (num_channels plane_2050,
                        ceil_div (image_height plane_2050) (2 ^ k),
                        ceil_div (image_width plane_2050) (2 ^ k), 1)
          ∧ data c () = _tiles_generator never_rounded plane_2050 (1024, 1024)%Z
                          (2 ^ Z.of_nat k) "box"
          ∧ (if decide (k = 0)
             then subifds c = Some (3 - 1)%Z ∧ subfiletype c = None
             else subifds c = None ∧ subfiletype c = Some 1%Z)
          ∧ ((1 ≤ 1024)%Z →
             page_tiles (drained c)
             = image ← planes plane_2050;
               match _downsample_image never_rounded image (2 ^ Z.of_nat k) "box" with
               | Ok out => (image_tiles out 1024 1024).1
               | Raise _ => []
               end))
  ∧ (stack_ok plane_2050 → ∀ k image, image ∈ planes plane_2050 →
       ∃ out, _downsample_image never_rounded image (2 ^ Z.of_nat k) "box" = Ok out
            ∧ shape out = (ceil_div (image_height plane_2050) (2 ^ k),
                           ceil_div (image_width plane_2050) (2 ^ k)))
  ∧ (stack_ok plane_2050 → tile_ok (1024, 1024)%Z = true → ∀ w,
       ∃ w', write_pyramidal_ome_tiff never_rounded never_mismatched (λ s : string, s)
               plane_2050 ["out"; "image.tif"]
               None None None 1024 3 "box" w = (Ok tt, w')
           ∧ files w' !! ["out"; "image.tif"]
             = Some {| header := bigtiff_header_linked; pages := drained <$> calls |}).
Proof.
  apply (pyramid_levels_written (λ s : string, s) plane_2050 ["out"; "image.tif"]
           None None None 1024 3 "box" creator_only).
  - lia.
  - reflexivity.
  - reflexivity.
  - reflexivity.
Defined.

Example pyramid_2050 :
  let calls := write_calls never_rounded plane_2050
                 (writer_options 1024 None creator_only) 3 "box" in
  shape4 <$> calls = [(1, 2050, 2050, 1); (1, 1025, 1025, 1); (1, 513, 513, 1)]
  ∧ subifds <$> calls = [Some 2%Z; None; None]
  ∧ subfiletype <$> calls = [None; Some 1%Z; Some 1%Z].
Proof. vm_compute. done. Qed.

(** A plane of one pixel stays as it is under decimation by any step >= 1. *)
Lemma step2_one_pixel (v s : Z) :
  (1 ≤ s)%Z → step2 (Array2 1 [[v]]) s = Ok (Array2 1 [[v]]).
Proof.
  intros Hs. unfold step2. destruct (Z.eqb_spec s 0); [lia|].
  f_equal. f_equal.
  - cbn [ncols]. apply ceil_div_unique; lia.
  - cbn [rows]. unfold step. destruct (Z.ltb_spec 0 s); [|lia]. done.
Qed.

Lemma one_pixel_tiles (rounded : list Z → Z) (s : Z) :
  (2 ≤ s)%Z →
  _tiles_generator rounded one_pixel (16, 16)%Z s "nearest neighbor"
  = ([Array2 1 [[7%Z]]], None).
Proof.
  intros Hs. unfold _tiles_generator, one_pixel. cbn [planes gen_for].
  unfold _downsample_image. destruct (Z.eqb_spec s 1); [lia|].
  destruct (String.eqb_spec "nearest neighbor" "box"); [discriminate|].
  rewrite step2_one_pixel by lia. reflexivity.
Qed.

(** C6, where the code departs from it: on a one-channel stack of a single
    pixel, with level_count = 1076 and the nearest neighbour method, the
    write of level 1075 is one of the calls of the run; its planes, the
    stack downsampled by 2^1075, are single pixels, as ceil(1/2^1075) = 1
    says, and its iterator yields that one tile; but the shape it declares
    is (1, 0, 0, 1), because the float quotient 1 / 2**1075 is 0.0, so that
    no tile is called for and the outcome of the write is the library's
    answer to a tile it did not expect, and with it the outcome of the
    run. *)
Theorem pyramid_level_1075_declared_empty :
  (∀ rounded,
     write_calls rounded one_pixel (writer_options 16 None creator_only) 1076
       "nearest neighbor" !! 1075
     = Some (level_args rounded one_pixel (writer_options 16 None creator_only)
               "nearest neighbor" 1075))
  ∧ (∀ rounded,
       shape4 (level_args rounded one_pixel (writer_options 16 None creator_only)
                 "nearest neighbor" 1075) = (1, 0, 0, 1))
  ∧ ceil_div 1 (2 ^ 1075) = 1
  ∧ (∀ rounded,
       _downsample_image rounded (Array2 1 [[7%Z]]) (2 ^ Z.of_nat 1075) "nearest neighbor"
       = Ok (Array2 1 [[7%Z]]))
  ∧ (∀ rounded,
       data (level_args rounded one_pixel (writer_options 16 None creator_only)
               "nearest neighbor" 1075) ()
       = ([Array2 1 [[7%Z]]], None))
  ∧ (∀ rounded,
       tiles_needed (level_args rounded one_pixel (writer_options 16 None creator_only)
                       "nearest neighbor" 1075) = 0)
  ∧ (∀ rounded mismatched file w,
       (write mismatched file
          (level_args rounded one_pixel (writer_options 16 None creator_only)
             "nearest neighbor" 1075) w).1
       = mismatched
           (level_args rounded one_pixel (writer_options 16 None creator_only)
              "nearest neighbor" 1075)
           [Array2 1 [[7%Z]]])
  ∧ (∀ rounded mismatched file w,
       (write_pyramidal_ome_tiff rounded mismatched (λ s : string, s) one_pixel file
          None None None 16 1076 "nearest neighbor" w).1
       = mismatched
           (level_args rounded one_pixel (writer_options 16 None creator_only)
              "nearest neighbor" 1075)
           [Array2 1 [[7%Z]]]).
Proof.
  assert (2 ≤ 2 ^ Z.of_nat 1075)%Z as Hpow.
  { change 2%Z with (2 ^ 1)%Z at 1. apply Z.pow_le_mono_r; lia. }
  assert (∀ rounded,
            data (level_args rounded one_pixel (writer_options 16 None creator_only)
                    "nearest neighbor" 1075) ()
            = ([Array2 1 [[7%Z]]], None)) as Hdata.
  { intros rounded. cbn [level_args data writer_options opt_tile].
    by apply one_pixel_tiles. }
  assert (∀ rounded,
            tiles_needed (level_args rounded one_pixel
                            (writer_options 16 None creator_only)
                            "nearest neighbor" 1075) = 0) as Hneeded.
  { intros rounded. vm_compute. reflexivity. }
  assert (∀ rounded mismatched file w,
            (write mismatched file
               (level_args rounded one_pixel (writer_options 16 None creator_only)
                  "nearest neighbor" 1075) w).1
            = mismatched
                (level_args rounded one_pixel (writer_options 16 None creator_only)
                   "nearest neighbor" 1075)
                [Array2 1 [[7%Z]]]) as Hwrite.
  { intros rounded mismatched file w. unfold write.
    change (tile_ok (tile (level_args rounded one_pixel
                             (writer_options 16 None creator_only)
                             "nearest neighbor" 1075))) with true.
    cbv iota. rewrite Hdata, Hneeded. reflexivity. }
  split; [|split; [|split; [|split; [|split; [|split; [|split]]]]]];
    [| | | |exact Hdata|exact Hneeded|exact Hwrite|].
  - intros rounded. unfold write_calls.
    rewrite lookup_cons, list_lookup_fmap, py_range1_lookup by lia. reflexivity.
  - intros rounded. vm_compute. reflexivity.
  - pose proof (pow2_pos 1075) as Hp. revert Hp. generalize (2 ^ 1075).
    intros d Hd. apply ceil_div_unique; lia.
  - intros rounded. unfold _downsample_image.
    destruct (Z.eqb_spec (2 ^ Z.of_nat 1075) 1); [lia|].
    destruct (String.eqb_spec "nearest neighbor" "box"); [discriminate|].
    apply step2_one_pixel. lia.
  - intros rounded mismatched file w.
    destruct (writer_first_write (rounded := rounded) (mismatched := mismatched)
                (λ s : string, s) one_pixel file None None None 16 1076
                "nearest neighbor" creator_only w) as (w3 & -> & F3);
      [repeat constructor|reflexivity|reflexivity|].
    unfold py_range1. change (Z.to_nat (1076 - 1)) with (S 1074).
    rewrite seq_S, io_for_app. unfold io_bind at 1.
    destruct (io_for_write_appends (mismatched := mismatched) file
                (level_args rounded one_pixel (writer_options 16 None creator_only)
                   "nearest neighbor") (seq 1 1074) w3
                {| header := bigtiff_header_linked;
                   pages := [drained (level0_args rounded one_pixel
                                        (writer_options 16 None creator_only) 1076
                                        "nearest neighbor")] |})
      as (w4 & -> & _); [|reflexivity|exact F3|].
    { intros level Hlevel. apply elem_of_seq in Hlevel. split; [reflexivity|].
      apply (level_args_tiles (rounded := rounded) one_pixel 16 None creator_only
               "nearest neighbor" level);
        [repeat constructor|lia|reflexivity|reflexivity|lia]. }
    cbn [io_for]. unfold io_bind, io_ret.
    change (1 + 1074) with 1075. specialize (Hwrite rounded mismatched file w4).
    destruct (write mismatched file _ w4) as [[[]|e] w5]; cbn [fst] in *; done.
Qed.

(** ** Metadata, continued *)

(** The metadata record holds the keys the arguments call for and no other:
    always Creator; the four PhysicalSize keys exactly when a calibration is
    given; Channel exactly when the list of channel names is not empty. *)
Theorem metadata_keys {float : Type} (str : float → string) (img_stack : dask_array)
    (channel_names : option (list string)) (pixel_size_um : option (float * float))
    (m : gmap string ome_value) :
  _make_ome_metadata str img_stack channel_names pixel_size_um = Ok m →
  dom m = {["Creator"]}
          ∪ (match pixel_size_um with
             | Some _ =>
                 {["PhysicalSizeX"; "PhysicalSizeXUnit"; "PhysicalSizeY"; "PhysicalSizeYUnit"]}
             | None => ∅
             end)
          ∪ (match channel_names with Some (_ :: _) => {["Channel"]} | _ => ∅ end).
Proof.
  unfold _make_ome_metadata. intros H.
  destruct pixel_size_um as [[y x]|], channel_names as [[|name names]|];
    try case_decide; simplify_eq; rewrite ?dom_insert_L, dom_empty_L; set_solver.
Qed.

Lemma metadata_keys_witness :
  dom quarter_micron_metadata
  = {["Creator"]}
    ∪ {["PhysicalSizeX"; "PhysicalSizeXUnit"; "PhysicalSizeY"; "PhysicalSizeYUnit"]}
    ∪ ∅.
Proof.
  apply (metadata_keys (λ s : string, s) three_channels None (Some ("0.25", "0.25"))
           quarter_micron_metadata).
  reflexivity.
Defined.

(** ** Channel names *)

Lemma split_slash_cons_free (s t : string) :
  slash_free s = true →
  split_slash (s ++ String "/"%char t) = s :: split_slash t.
Proof.
  induction s as [|c s IH]; simpl; [done|].
  destruct (Ascii.eqb c "/"%char); simpl; [done|]. intros Hs. by rewrite IH.
Qed.

Lemma split_slash_free (s : string) : slash_free s = true → split_slash s = [s].
Proof.
  induction s as [|c s IH]; simpl; [done|].
  destruct (Ascii.eqb c "/"%char); simpl; [done|]. intros Hs. by rewrite IH.
Qed.

Lemma split_slash_length (s : string) : length (split_slash s) = S (count_slash s).
Proof.
  induction s as [|c s IH]; simpl; [done|].
  destruct (Ascii.eqb c "/"%char); simpl; [by rewrite IH|].
  destruct (split_slash s); simpl in *; lia.
Qed.

Lemma split_slash_pieces_free (s piece : string) :
  piece ∈ split_slash s → slash_free piece = true.
Proof.
  revert piece. induction s as [|c s IH]; intros piece; simpl.
  - intros H. apply list_elem_of_singleton in H. by subst.
  - destruct (Ascii.eqb c "/"%char) eqn:E.
    + intros H. apply elem_of_cons in H as [->|H]; [done|]. by apply IH.
    + destruct (split_slash s) as [|p ps].
      * intros H. apply list_elem_of_singleton in H. subst. simpl. by rewrite E.
      * intros H. apply elem_of_cons in H as [->|H].
        -- simpl. rewrite E. simpl. apply IH. by left.
        -- apply IH. by right.
Qed.

(** A group name of the form a/b/c, or a/b/c/more, where a, b and c hold no
    slash, gives the channel name c: what stands between the second slash
    and the third, or the end.  (BigWarp's group names start with a slash, so
    a is empty.) *)
Theorem channel_name_is_third_piece (a b c more : string) :
  slash_free a = true → slash_free b = true → slash_free c = true →
  group_name_to_channel_name (a ++ String "/"%char (b ++ String "/"%char c)) None = inr c
  ∧ group_name_to_channel_name
      (a ++ String "/"%char (b ++ String "/"%char (c ++ String "/"%char more))) None = inr c.
Proof.
  intros Ha Hb Hc. unfold group_name_to_channel_name.
  rewrite !split_slash_cons_free by done.
  by rewrite split_slash_free.
Qed.

Lemma channel_name_is_third_piece_witness :
  group_name_to_channel_name (EmptyString ++ String "/"%char ("warped" ++ String "/"%char "cycle2-s0-DAPI")) None
  = inr "cycle2-s0-DAPI"
  ∧ group_name_to_channel_name
      (EmptyString ++ String "/"%char ("warped" ++ String "/"%char ("cycle2-s0-DAPI" ++ String "/"%char "0"))) None
    = inr "cycle2-s0-DAPI".
Proof.
  apply (channel_name_is_third_piece EmptyString "warped" "cycle2-s0-DAPI" "0"); reflexivity.
Defined.

(** Without renaming, the function fails exactly on group names with fewer
    than two slashes, with IndexError, and a channel name it returns never
    holds a slash, so that appending ".tif" to it names a file and not a
    path. *)
Theorem channel_name_index_error (group_name : string) :
  (group_name_to_channel_name group_name None = inl IndexError
     ↔ count_slash group_name < 2)
  ∧ ∀ channel_name, group_name_to_channel_name group_name None = inr channel_name →
      slash_free channel_name = true.
Proof.
  unfold group_name_to_channel_name.
  pose proof (split_slash_length group_name) as Hlen.
  destruct (split_slash group_name !! 2) as [c|] eqn:E; split.
  - apply lookup_lt_Some in E. split; [done|lia].
  - intros ? [= <-]. eapply split_slash_pieces_free, list_elem_of_lookup_2, E.
  - apply lookup_ge_None in E. split; [lia|done].
  - done.
Qed.

(** Renaming: an empty dictionary renames nothing, exactly like no
    dictionary; a dictionary that is not empty replaces the channel name by
    the entry stored under it, and raises KeyError, naming the channel, when
    it has no such entry; a group name too short to hold a channel name
    raises IndexError before the dictionary is looked at. *)
Theorem channel_name_renaming (group_name : string) (d : gmap string string) :
  group_name_to_channel_name group_name (Some ∅)
  = group_name_to_channel_name group_name None
  ∧ (d ≠ ∅ →
     group_name_to_channel_name group_name (Some d)
     = match group_name_to_channel_name group_name None with
       | inr channel_name =>
           match d !! channel_name with
           | Some renamed => inr renamed
           | None => inl (KeyError channel_name)
           end
       | inl e => inl e
       end).
Proof.
  unfold group_name_to_channel_name.
  destruct (split_slash group_name !! 2) as [c|]; [|done].
  split; [by rewrite decide_True|]. intros Hd. by rewrite decide_False.
Qed.

Example channel_name_examples :
  group_name_to_channel_name "/warped/cycle2-s0-DAPI" None = inr "cycle2-s0-DAPI"
  ∧ group_name_to_channel_name "/warped/cycle2-s0-DAPI"
      (Some {["cycle2-s0-DAPI" := "some_other_filename_DAPI"]})
    = inr "some_other_filename_DAPI"
  ∧ group_name_to_channel_name "/warped/cycle2-s0-DAPI"
      (Some {["cycle2-s0-Opal_520" := "some_other_filename_Opal_520"]})
    = inl (KeyError "cycle2-s0-DAPI")
  ∧ group_name_to_channel_name "/warped" None = inl IndexError.
Proof. vm_compute. done. Qed.
